(** * The multi-site scraper add-on (addon.js): crawl, ingest and query

    A shallow embedding of the crawl-and-ingest engine of [addon.js]
    ([fetchPageData], [scrapeSite], [refreshScraping], the stream and meta
    handlers and the [/add-site] route) together with the platform
    functions it calls ([Buffer.from(..).toString('base64')],
    [String.prototype.startsWith], the two link regular expressions).

    JavaScript strings are sequences of UTF-16 code units; the visited
    [Set] is a finite set of strings; the Mongo collection is the list of
    its documents in natural order. *)

From Stdlib Require Import NArith Lia List Bool.
From stdpp Require Import gmap sets list strings.

Local Open Scope N_scope.

(** ** JavaScript strings *)

Module JsString.

(** A string value is the list of its UTF-16 code units, [list N]. *)

(** An ASCII literal as a JavaScript string. *)
Definition js (s : string) : list N :=
  List.map Ascii.N_of_ascii (String.list_ascii_of_string s).

Definition is_high_surrogate (c : N) : bool := (0xD800 <=? c) && (c <=? 0xDBFF).
Definition is_low_surrogate (c : N) : bool := (0xDC00 <=? c) && (c <=? 0xDFFF).

(** [String.prototype.isWellFormed]: every code unit is a 16-bit value and
    every surrogate is half of a high/low pair. *)
Fixpoint isWellFormed (s : list N) : bool :=
  match s with
  | [] => true
  | c :: rest =>
      if is_high_surrogate c then
        match rest with
        | d :: rest' => is_low_surrogate d && isWellFormed rest'
        | [] => false
        end
      else negb (is_low_surrogate c) && (c <? 0x10000) && isWellFormed rest
  end.

(** [s.startsWith(p)] *)
Fixpoint startsWith (p s : list N) : bool :=
  match p, s with
  | [], _ => true
  | _ :: _, [] => false
  | a :: p', b :: s' => (a =? b) && startsWith p' s'
  end.

(** [s.includes(p)] *)
Fixpoint includes (p s : list N) : bool :=
  startsWith p s ||
  match s with
  | [] => false
  | _ :: s' => includes p s'
  end.

(** [s.endsWith(p)] *)
Definition endsWith (p s : list N) : bool := startsWith (rev p) (rev s).

(** Case folding of the [i] flag of a regular expression without the [u]
    flag, restricted to the patterns used here, whose characters are all
    ASCII: a code unit of 128 or more never folds onto an ASCII one. *)
Definition fold_ascii (c : N) : N :=
  if (0x41 <=? c) && (c <=? 0x5A) then c + 32 else c.

(** [s.replace(/\./g, '-')] *)
Definition replace_dots (s : list N) : list N :=
  List.map (fun c => if c =? 0x2E then 0x2D else c) s.

End JsString.

Import JsString.

(** ** Buffer.from(string) and Buffer.toString('base64') *)

Module Buffer.

(** The UTF-8 bytes of one code point. *)
Definition utf8_bytes (cp : N) : list N :=
  if cp <? 0x80 then [cp]
  else if cp <? 0x800 then [0xC0 + cp / 64; 0x80 + cp mod 64]
  else if cp <? 0x10000 then
    [0xE0 + cp / 4096; 0x80 + (cp / 64) mod 64; 0x80 + cp mod 64]
  else
    [0xF0 + cp / 262144; 0x80 + (cp / 4096) mod 64;
     0x80 + (cp / 64) mod 64; 0x80 + cp mod 64].

(** U+FFFD, written for every unpaired surrogate. *)
Definition replacement : list N := [0xEF; 0xBF; 0xBD].

Definition pair_code_point (hi lo : N) : N :=
  0x10000 + (hi - 0xD800) * 1024 + (lo - 0xDC00).

(** [Buffer.from(s)] with the default encoding, utf8. *)
Fixpoint from (s : list N) : list N :=
  match s with
  | [] => []
  | c :: rest =>
      if is_high_surrogate c then
        match rest with
        | d :: rest' =>
            if is_low_surrogate d
            then utf8_bytes (pair_code_point c d) ++ from rest'
            else replacement ++ from rest
        | [] => replacement
        end
      else if is_low_surrogate c then replacement ++ from rest
      else utf8_bytes c ++ from rest
  end.

Definition alphabet : list N :=
  js "ABCDEFGHIJKLMNOPQRSTUVWXYZabcdefghijklmnopqrstuvwxyz0123456789+/".

Definition digit (i : N) : N := List.nth (N.to_nat i) alphabet 0.

(** The padding character [=]. *)
Definition pad : N := 0x3D.

(** [buf.toString('base64')] *)
Fixpoint toString_base64 (bs : list N) : list N :=
  match bs with
  | [] => []
  | [a] => [digit (a / 4); digit ((a mod 4) * 16); pad; pad]
  | [a; b] =>
      [digit (a / 4); digit ((a mod 4) * 16 + b / 16);
       digit ((b mod 16) * 4); pad]
  | a :: b :: c :: rest =>
      [digit (a / 4); digit ((a mod 4) * 16 + b / 16);
       digit ((b mod 16) * 4 + c / 64); digit (c mod 64)]
      ++ toString_base64 rest
  end.

(** Inverses, used to show that the two encodings lose nothing. *)
Fixpoint utf8_decode (bs : list N) : list N :=
  match bs with
  | [] => []
  | b0 :: r0 =>
      if b0 <? 0x80 then b0 :: utf8_decode r0
      else if b0 <? 0xE0 then
        match r0 with
        | b1 :: r1 => ((b0 - 0xC0) * 64 + (b1 - 0x80)) :: utf8_decode r1
        | _ => []
        end
      else if b0 <? 0xF0 then
        match r0 with
        | b1 :: b2 :: r2 =>
            ((b0 - 0xE0) * 4096 + (b1 - 0x80) * 64 + (b2 - 0x80))
              :: utf8_decode r2
        | _ => []
        end
      else
        match r0 with
        | b1 :: b2 :: b3 :: r3 =>
            let v := (b0 - 0xF0) * 262144 + (b1 - 0x80) * 4096
                     + (b2 - 0x80) * 64 + (b3 - 0x80) - 0x10000 in
            (0xD800 + v / 1024) :: (0xDC00 + v mod 1024) :: utf8_decode r3
        | _ => []
        end
  end.

Fixpoint index_from (k : N) (l : list N) (c : N) : N :=
  match l with
  | [] => k
  | x :: l' => if x =? c then k else index_from (k + 1) l' c
  end.

Definition digit_value (c : N) : N := index_from 0 alphabet c.

Fixpoint base64_decode (cs : list N) : list N :=
  match cs with
  | c0 :: c1 :: c2 :: c3 :: rest =>
      let v0 := digit_value c0 in
      let v1 := digit_value c1 in
      let v2 := digit_value c2 in
      let v3 := digit_value c3 in
      if c2 =? pad then [v0 * 4 + v1 / 16]
      else if c3 =? pad then [v0 * 4 + v1 / 16; (v1 mod 16) * 16 + v2 / 4]
      else [v0 * 4 + v1 / 16; (v1 mod 16) * 16 + v2 / 4; (v2 mod 4) * 64 + v3]
           ++ base64_decode rest
  | _ => []
  end.

End Buffer.

(** [const entryId = Buffer.from(videoUrl).toString('base64')] *)
Definition entryId (videoUrl : list N) : list N :=
  Buffer.toString_base64 (Buffer.from videoUrl).


(** ** The URL class, on a fragment of its inputs

    [new URL(s)] without a base.  The parser of the URL standard is
    followed on two kinds of input: a string without a scheme, which the
    constructor refuses, and an [http] or [https] URL whose authority is
    a plain host name with an optional port.  Every other input (another
    scheme, user information, an address in digits or in brackets, an
    encoded or international host name, a backslash, a space in the
    authority) is [Outside]: the model says nothing about it. *)

Module URL.

Record t := { scheme : list N; host : list N; port : list N }.

Inductive parsed :=
| Parsed (u : t)
| Invalid
| Outside.

Definition is_alpha (c : N) : bool :=
  ((0x41 <=? c) && (c <=? 0x5A)) || ((0x61 <=? c) && (c <=? 0x7A)).
Definition is_digit (c : N) : bool := (0x30 <=? c) && (c <=? 0x39).
Definition is_scheme_char (c : N) : bool :=
  is_alpha c || is_digit c || (c =? 0x2B) || (c =? 0x2D) || (c =? 0x2E).

(** The longest prefix of [s] without a code unit satisfying [stop], and
    the rest. *)
Fixpoint break (stop : N -> bool) (s : list N) : list N * list N :=
  match s with
  | [] => ([], [])
  | c :: s' =>
      if stop c then ([], s)
      else let '(a, b) := break stop s' in (c :: a, b)
  end.

(** The parser first drops the C0 controls and spaces at both ends, and
    every tab and newline. *)
Fixpoint drop_while (f : N -> bool) (s : list N) : list N :=
  match s with
  | [] => []
  | c :: s' => if f c then drop_while f s' else s
  end.

Definition clean (s : list N) : list N :=
  let is_c0_or_space c := c <=? 0x20 in
  let is_tab_or_newline c := (c =? 0x09) || (c =? 0x0A) || (c =? 0x0D) in
  List.filter (fun c => negb (is_tab_or_newline c))
    (List.rev (drop_while is_c0_or_space
                 (List.rev (drop_while is_c0_or_space s)))).

(** The pieces of [s] between the occurrences of [c]. *)
Fixpoint split_on (c : N) (s : list N) : list (list N) :=
  match s with
  | [] => [[]]
  | x :: s' =>
      if x =? c then [] :: split_on c s'
      else match split_on c s' with
           | l :: ls => (x :: l) :: ls
           | [] => [[x]]
           end
  end.

Fixpoint has_double_hyphen (l : list N) : bool :=
  match l with
  | a :: ((b :: _) as l') =>
      ((a =? 0x2D) && (b =? 0x2D)) || has_double_hyphen l'
  | _ => false
  end.

(** A label of letters, digits and single hyphens. *)
Definition plain_label (l : list N) : bool :=
  negb (length l =? 0)%nat
  && forallb (fun c => is_alpha c || is_digit c || (c =? 0x2D)) l
  && negb (has_double_hyphen l).

(** A host name of plain labels, the last of which starts with a letter
    (so that it is not read as an address in digits). *)
Definition plain_host (h : list N) : bool :=
  let ls := split_on 0x2E h in
  forallb plain_label ls
  && match List.last ls [] with c :: _ => is_alpha c | [] => false end.

(** A port in decimal digits without a leading zero, at most 65535. *)
Definition plain_port (p : list N) : bool :=
  match p with
  | [] => false
  | c :: _ =>
      negb (c =? 0x30) && forallb is_digit p && (length p <=? 5)%nat
      && (fold_left (fun n d => 10 * n + (d - 0x30)) p 0 <=? 65535)
  end.

(** The port that a scheme leaves out of the serialization. *)
Definition default_port (scheme : list N) : list N :=
  if bool_decide (scheme = js "http") then js "80"
  else if bool_decide (scheme = js "https") then js "443"
  else [].

Definition parse (s : list N) : parsed :=
  let '(sch, rest) := break (fun c => negb (is_scheme_char c)) (clean s) in
  match sch, rest with
  | c :: _, 0x3A :: rest' =>
      if is_alpha c then
        let sch := List.map fold_ascii sch in
        if bool_decide (sch = js "http") || bool_decide (sch = js "https") then
          match rest' with
          | 0x2F :: 0x2F :: rest'' =>
              let '(authority, _) :=
                break (fun x => (x =? 0x2F) || (x =? 0x3F) || (x =? 0x23)) rest'' in
              let '(h, p) := break (N.eqb 0x3A) authority in
              if plain_host h then
                match p with
                | [] => Parsed {| scheme := sch; host := List.map fold_ascii h;
                                  port := [] |}
                | _ :: p =>
                    if plain_port p then
                      Parsed {| scheme := sch; host := List.map fold_ascii h;
                                port := if bool_decide (p = default_port sch)
                                        then [] else p |}
                    else Outside
                end
              else Outside
          | _ => Outside
          end
        else Outside
      else Invalid
  | _, _ => Invalid
  end.

(** [new URL(s).hostname] where the model follows the constructor;
    [None] where the constructor throws, and outside the model. *)
Definition hostname (s : list N) : option (list N) :=
  match parse s with Parsed u => Some (host u) | _ => None end.

(** [new URL(s).origin], likewise. *)
Definition origin (s : list N) : option (list N) :=
  match parse s with
  | Parsed u =>
      Some (scheme u ++ js "://" ++ host u
            ++ match port u with [] => [] | p => 0x3A :: p end)
  | _ => None
  end.

End URL.

(** ** The rendered page and what the in-page script extracts *)

(** The elements matched by [a[href], iframe[src]], with the value of
    their [href] or [src] property. *)
Inductive Element :=
| Anchor (href : list N)
| IFrame (src : list N).

Record Document := {
  location_origin : list N;
  document_title : list N;
  (** [content] of the first [meta[name="description"]], when there is one *)
  meta_description : option (list N);
  (** [content] of the first [meta[property="og:image"]], when there is one *)
  meta_og_image : option (list N);
  (** the anchors with an [href] and the frames with a [src], in document order *)
  elements : list Element;
}.

Record PageData := {
  title : list N;
  description : list N;
  image : list N;
  videos : list (list N);
  subLinks : list (list N);
}.

(** [document.querySelector(selector)?.content || 'No Data'] *)
Definition getContent (content : option (list N)) : list N :=
  match content with
  | Some (c :: s) => c :: s
  | _ => js "No Data"
  end.

(** [el.href || el.src] *)
Definition link_of (el : Element) : list N :=
  match el with
  | Anchor href => href
  | IFrame src => src
  end.

Definition anchors (els : list Element) : list (list N) :=
  List.flat_map (fun el => match el with Anchor h => [h] | IFrame _ => [] end) els.

(** [/\.(mp4|m3u8|avi|mov)$/i.test(link) ||
     /vidstream|dood|streamsb|streamtape/.test(link)] *)
Definition isVideoLink (link : list N) : bool :=
  existsb (fun ext => endsWith (js ext) (List.map fold_ascii link))
          [".mp4"; ".m3u8"; ".avi"; ".mov"]%string
  || existsb (fun h => includes (js h) link)
          ["vidstream"; "dood"; "streamsb"; "streamtape"]%string.

(** The function handed to [page.evaluate]. *)
Definition extract (doc : Document) : PageData :=
  {| title := match document_title doc with [] => js "No Title" | t => t end;
     description := getContent (meta_description doc);
     image := getContent (meta_og_image doc);
     videos := List.filter isVideoLink (List.map link_of (elements doc));
     subLinks := List.filter (startsWith (location_origin doc))
                             (anchors (elements doc)) |}.

(** ** Program state, outside world and effects

    Every call that leaves the program can fail: the calls to puppeteer
    ([launch], [newPage], [setUserAgent], [goto], [evaluate] and the two
    [close]), the writes and the reads of the collection, and [new URL].
    What fails is for the surroundings to decide. *)

(** [sitesToScrape] holds [{ url, id }] objects. *)
Record Site := { site_url : list N; site_id : list N }.

(** A document of the [scraped_entries] collection. *)
Record Entry := {
  e_catalogId : list N;
  e_id : list N;
  e_name : list N;
  e_description : list N;
  e_poster : list N;
  e_videoUrl : list N;
}.

Inductive LogLine :=
| Starting
| Scraping (url : list N)
| Completed
| AddedSite (url catalogId : list N).

Inductive Body :=
| ErrorBody (error : string)
| SuccessBody (catalogId : list N).

(** What the program does to its surroundings.  [Launch] and [NewPage]
    record the handle that an accepted call gave; the other events record
    the call, accepted or not. *)
Inductive Event :=
| Launch (browser : nat)
| BrowserClose (browser : nat)
| NewPage (browser page : nat)
| SetUserAgent (page : nat) (ua : string)
| Goto (page : nat) (url : list N)
| Evaluate (page : nat)
| PageClose (page : nat)
| ConsoleLog (line : LogLine)
| ConsoleError (url message : list N)
| Respond (status : nat) (body : Body).

(** The calls to puppeteer other than [goto] and [evaluate]. *)
Inductive Call :=
| call_launch
| call_browser_close (browser : nat)
| call_newPage (browser : nat)
| call_setUserAgent (page : nat)
| call_page_close (page : nat).

(** What is thrown: by [goto] or [evaluate], by another call to puppeteer,
    by a write, by a read, by [new URL]. *)
Inductive Error :=
| PageError (message : list N)
| PuppeteerError (call : Call) (message : list N)
| MongoError (doc : Entry)
| ReadError (message : list N)
| InvalidURL (input : list N).

(** [err.message] *)
Definition message (e : Error) : list N :=
  match e with
  | PageError m => m
  | PuppeteerError _ m => m
  | MongoError _ => js "write rejected"
  | ReadError m => m
  | InvalidURL _ => js "Invalid URL"
  end.

(** What a rendering context meets at a URL. *)
Inductive Visit :=
| Rendered (doc : Document)
| NavigationFails (message : list N)
| EvaluationFails (message : list N).

(** Everything the program does not decide: the sites (a URL meets the
    same page throughout a run); which writes the store rejects; which
    reads throw, by the value queried, and with what message ([db] is
    [undefined] until [initializeDB] has run, so that [db.collection] is a
    TypeError, and the driver may reject the query); which other calls
    puppeteer rejects, given the events so far, and with what message; the
    draws of [Math.random] (as the index drawn for a page); and the host
    name [new URL] finds in a string ([None] when it throws). *)
Record World := {
  web : list N -> Visit;
  store_rejects : Entry -> bool;
  read_rejects : list N -> option (list N);
  puppeteer_rejects : list Event -> Call -> option (list N);
  random : nat -> nat;
  hostname_of : list N -> option (list N);
}.

Record State := {
  db : list Entry;
  sitesToScrape : list Site;
  (** the next fresh browser or page handle *)
  fresh : nat;
  (** rendering contexts opened and not yet closed *)
  open_pages : list nat;
  (** browsers launched and not yet closed *)
  open_browsers : list nat;
  (** the events so far, latest first *)
  trace : list Event;
}.

Inductive Result (A : Type) :=
| Returned (a : A) (s : State)
| Thrown (e : Error) (s : State)
| OutOfFuel.
Arguments Returned {A} a s.
Arguments Thrown {A} e s.
Arguments OutOfFuel {A}.

Definition M (A : Type) : Type := State -> Result A.

Definition ret {A} (a : A) : M A := fun s => Returned a s.

Definition bind {A B} (m : M A) (k : A -> M B) : M B :=
  fun s =>
    match m s with
    | Returned a s' => k a s'
    | Thrown e s' => Thrown e s'
    | OutOfFuel => OutOfFuel
    end.

Notation "'let*' x ':=' m 'in' k" := (bind m (fun x => k))
  (at level 10, x name, m at level 100, k at level 200).
Notation "m ';;' k" := (bind m (fun _ => k))
  (at level 100, k at level 200, right associativity).

Definition throw {A} (e : Error) : M A := fun s => Thrown e s.

(** [try { body } catch (err) { handler }] *)
Definition try_catch {A} (body : M A) (handler : Error -> M A) : M A :=
  fun s =>
    match body s with
    | Thrown e s' => handler e s'
    | r => r
    end.

Definition emit (e : Event) : M unit :=
  fun s => Returned tt
    {| db := db s; sitesToScrape := sitesToScrape s; fresh := fresh s;
       open_pages := open_pages s; open_browsers := open_browsers s;
       trace := e :: trace s |}.

(** [for (const x of l) { body }], with the values the body updates. *)
Fixpoint for_of {A B} (l : list A) (acc : B) (body : A -> B -> M B) : M B :=
  match l with
  | [] => ret acc
  | x :: l' => let* acc' := body x acc in for_of l' acc' body
  end.

(** *** The browser *)

(** A call to puppeteer, as the surroundings take it after the events so
    far. *)
Definition call (w : World) (c : Call) : M unit :=
  fun s =>
    match puppeteer_rejects w (trace s) c with
    | Some m => Thrown (PuppeteerError c m) s
    | None => Returned tt s
    end.

(** [puppeteer.launch({ headless: true })] *)
Definition launch (w : World) : M nat :=
  call w call_launch ;;
  fun s => Returned (fresh s)
    {| db := db s; sitesToScrape := sitesToScrape s; fresh := S (fresh s);
       open_pages := open_pages s;
       open_browsers := fresh s :: open_browsers s;
       trace := Launch (fresh s) :: trace s |}.

(** [browser.close()] *)
Definition browser_close (w : World) (browser : nat) : M unit :=
  emit (BrowserClose browser) ;;
  call w (call_browser_close browser) ;;
  fun s => Returned tt
    {| db := db s; sitesToScrape := sitesToScrape s; fresh := fresh s;
       open_pages := open_pages s;
       open_browsers := List.filter (fun b => negb (b =? browser)%nat) (open_browsers s);
       trace := trace s |}.

(** [browser.newPage()] *)
Definition newPage (w : World) (browser : nat) : M nat :=
  call w (call_newPage browser) ;;
  fun s => Returned (fresh s)
    {| db := db s; sitesToScrape := sitesToScrape s; fresh := S (fresh s);
       open_pages := fresh s :: open_pages s;
       open_browsers := open_browsers s;
       trace := NewPage browser (fresh s) :: trace s |}.

(** [page.setUserAgent(ua)] *)
Definition setUserAgent (w : World) (page : nat) (ua : string) : M unit :=
  emit (SetUserAgent page ua) ;;
  call w (call_setUserAgent page).

(** [page.close()]: the page stays open when the call is rejected. *)
Definition page_close (w : World) (page : nat) : M unit :=
  emit (PageClose page) ;;
  call w (call_page_close page) ;;
  fun s => Returned tt
    {| db := db s; sitesToScrape := sitesToScrape s; fresh := fresh s;
       open_pages := List.filter (fun p => negb (p =? page)%nat) (open_pages s);
       open_browsers := open_browsers s;
       trace := trace s |}.

(** [page.goto(url, { waitUntil: 'domcontentloaded', timeout: 60000 })] *)
Definition goto (w : World) (page : nat) (url : list N) : M unit :=
  emit (Goto page url) ;;
  match web w url with
  | NavigationFails m => throw (PageError m)
  | _ => ret tt
  end.

(** [page.evaluate(() => { ... })] on the page loaded from [url]. *)
Definition evaluate (w : World) (page : nat) (url : list N) : M PageData :=
  emit (Evaluate page) ;;
  match web w url with
  | Rendered doc => ret (extract doc)
  | NavigationFails m => throw (PageError m)
  | EvaluationFails m => throw (PageError m)
  end.

(** *** The collection *)

Definition same_key (id catalogId : list N) (d : Entry) : bool :=
  bool_decide (e_id d = id) && bool_decide (e_catalogId d = catalogId).

(** [updateOne({ id, catalogId }, { $set: doc }, { upsert: true })] on the
    documents, and [findOneAndUpdate] with the same filter and fields in
    the Mongoose variant: the first document that matches the filter takes
    the fields of [doc]; without a match [doc] is inserted. *)
Fixpoint upsert (id catalogId : list N) (doc : Entry) (docs : list Entry)
  : list Entry :=
  match docs with
  | [] => [doc]
  | d :: rest =>
      if same_key id catalogId d then doc :: rest
      else d :: upsert id catalogId doc rest
  end.

(** The write throws when the store rejects it, which [db] being still
    [undefined] comes down to. *)
Definition updateOne (w : World) (id catalogId : list N) (doc : Entry) : M unit :=
  fun s =>
    if store_rejects w doc then Thrown (MongoError doc) s
    else Returned tt
      {| db := upsert id catalogId doc (db s);
         sitesToScrape := sitesToScrape s; fresh := fresh s;
         open_pages := open_pages s; open_browsers := open_browsers s;
         trace := trace s |}.

(** [findOne({ id })] on the documents: the first one with that [id]. *)
Definition findOne (id : list N) (docs : list Entry) : option Entry :=
  List.find (fun d => bool_decide (e_id d = id)) docs.

(** [db.collection(collectionName)] as a handler reads it for a query on
    [value]: the documents, unless the read throws. *)
Definition collection_read (w : World) (value : list N) : M (list Entry) :=
  fun s =>
    match read_rejects w value with
    | Some m => Thrown (ReadError m) s
    | None => Returned (db s) s
    end.

(** ** The program *)

Definition userAgents : list string :=
  ["Mozilla/5.0 (Windows NT 10.0; Win64; x64)...";
   "Mozilla/5.0 (Macintosh; Intel Mac OS X 10_15_7)...";
   "Mozilla/5.0 (X11; Linux x86_64)...";
   "Mozilla/5.0 (iPhone; CPU iPhone OS 14_0 like Mac OS X)..."]%string.

(** [async function fetchPageData(url, browser)]; [None] is [null]. *)
Definition fetchPageData (w : World) (url : list N) (browser : nat)
  : M (option PageData) :=
  let* page := newPage w browser in
  setUserAgent w page
    (List.nth (random w page mod length userAgents)%nat userAgents ""%string) ;;
  try_catch
    (goto w page url ;;
     let* data := evaluate w page url in
     page_close w page ;;
     ret (Some data))
    (fun err =>
     emit (ConsoleError url (message err)) ;;
     page_close w page ;;
     ret None).

(** The document that the first loop of [scrapeSite] writes for a link. *)
Definition video_entry (catalogId : list N) (data : PageData)
    (videoUrl : list N) : Entry :=
  {| e_catalogId := catalogId; e_id := entryId videoUrl; e_name := title data;
     e_description := description data; e_poster := image data;
     e_videoUrl := videoUrl |}.

(** The body of the first loop of [scrapeSite]. *)
Definition store_video (w : World) (catalogId : list N) (data : PageData)
    (videoUrl : list N) : M unit :=
  let entryId := entryId videoUrl in
  updateOne w entryId catalogId (video_entry catalogId data videoUrl).

(** [async function scrapeSite(site, browser, visited = new Set())].
    The [Set] is one object shared by all the calls of a walk: every call
    gets the set as its callee left it and hands it on.  [fuel] bounds the
    depth of the recursion. *)
Fixpoint scrapeSite (w : World) (fuel : nat) (site : Site) (browser : nat)
    (visited : gset (list N)) : M (gset (list N)) :=
  match fuel with
  | O => fun _ => OutOfFuel
  | S fuel' =>
      let url := site_url site in
      let catalogId := site_id site in
      if decide (url ∈ visited) then ret visited
      else
        let visited := {[url]} ∪ visited in
        emit (ConsoleLog (Scraping url)) ;;
        let* data := fetchPageData w url browser in
        match data with
        | None => ret visited
        | Some data =>
            for_of (videos data) tt
              (fun videoUrl _ => store_video w catalogId data videoUrl) ;;
            for_of (subLinks data) visited
              (fun subLink visited =>
                 scrapeSite w fuel' {| site_url := subLink; site_id := catalogId |}
                            browser visited)
        end
  end.

(** [async function refreshScraping()] *)
Definition refreshScraping (w : World) (fuel : nat) : M unit :=
  emit (ConsoleLog Starting) ;;
  let* browser := launch w in
  let* sites := (fun s => Returned (sitesToScrape s) s) in
  for_of sites tt
    (fun site _ => scrapeSite w fuel site browser ∅ ;; ret tt) ;;
  browser_close w browser ;;
  emit (ConsoleLog Completed).

(** *** The add-on's handlers *)

Record Stream := { stream_url : list N }.

Record Meta := {
  meta_id : list N;
  meta_type : string;
  meta_name : list N;
  meta_poster : list N;
  meta_description_of : list N;
}.

(** The [streams] that the stream handler answers with, on the documents
    it read. *)
Definition streamHandler (id : list N) (docs : list Entry) : list Stream :=
  match findOne id docs with
  | Some entry => [{| stream_url := e_videoUrl entry |}]
  | None => []
  end.

(** The [meta] that the meta handler answers with, on the documents it
    read; [None] for the empty object. *)
Definition metaHandler (id : list N) (docs : list Entry) : option Meta :=
  match findOne id docs with
  | Some entry =>
      Some {| meta_id := e_id entry; meta_type := "movie";
              meta_name := e_name entry; meta_poster := e_poster entry;
              meta_description_of := e_description entry |}
  | None => None
  end.

(** [builder.defineStreamHandler(async ({ id }) => ...)] and
    [builder.defineMetaHandler(async ({ id }) => ...)]: neither guards its
    read. *)
Definition defineStreamHandler (w : World) (id : list N) : M (list Stream) :=
  let* docs := collection_read w id in
  ret (streamHandler id docs).

Definition defineMetaHandler (w : World) (id : list N) : M (option Meta) :=
  let* docs := collection_read w id in
  ret (metaHandler id docs).

(** *** Registration *)

(** [new URL(url).hostname] *)
Definition new_URL_hostname (w : World) (url : list N) : M (list N) :=
  match hostname_of w url with
  | Some h => ret h
  | None => throw (InvalidURL url)
  end.

Definition push_site (site : Site) : M unit :=
  fun s => Returned tt
    {| db := db s; sitesToScrape := sitesToScrape s ++ [site];
       fresh := fresh s; open_pages := open_pages s;
       open_browsers := open_browsers s; trace := trace s |}.

(** [catalog-${domain}] *)
Definition catalogId_of (hostname : list N) : list N :=
  js "catalog-" ++ replace_dots hostname.

(** [app.post('/add-site', async (req, res) => ...)], on the [url] of the
    request body ([None] when the body has none). *)
Definition add_site (w : World) (fuel : nat) (url : option (list N)) : M unit :=
  match url with
  | None | Some [] => emit (Respond 400 (ErrorBody "Missing URL"))
  | Some url =>
      let* hostname := new_URL_hostname w url in
      let catalogId := catalogId_of hostname in
      push_site {| site_url := url; site_id := catalogId |} ;;
      emit (ConsoleLog (AddedSite url catalogId)) ;;
      refreshScraping w fuel ;;
      emit (Respond 200 (SuccessBody catalogId))
  end.

Definition initial : State :=
  {| db := []; sitesToScrape := []; fresh := 0%nat; open_pages := [];
     open_browsers := []; trace := [] |}.

(** ** Vocabulary of the statements *)

(** The URLs navigated to in a trace, latest first. *)
Definition gotos (t : list Event) : list (list N) :=
  List.flat_map (fun e => match e with Goto _ u => [u] | _ => [] end) t.

(** The rendering contexts opened in a trace, and those that [close] was
    called on. *)
Definition pages_opened (t : list Event) : list nat :=
  List.flat_map (fun e => match e with NewPage _ p => [p] | _ => [] end) t.
Definition pages_closed (t : list Event) : list nat :=
  List.flat_map (fun e => match e with PageClose p => [p] | _ => [] end) t.

(** The browser events of a trace. *)
Definition browsers (t : list Event) : list Event :=
  List.filter (fun e => match e with
                        | Launch _ | BrowserClose _ => true
                        | _ => false
                        end) t.

(** Surroundings in which puppeteer rejects no call other than [goto] and
    [evaluate]. *)
Class accepts_calls (w : World) : Prop :=
  calls_accepted : forall t c, puppeteer_rejects w t c = None.

(** A finite page graph: [U] holds every link that a page of [U] makes
    the walk follow. *)
Definition closed_under (w : World) (U : gset (list N)) : Prop :=
  forall u doc l,
    u ∈ U -> web w u = Rendered doc -> In l (subLinks (extract doc)) -> l ∈ U.

(** The same, checked on a list of URLs. *)
Definition closedb (w : World) (us : list (list N)) : bool :=
  forallb (fun u =>
             match web w u with
             | Rendered doc =>
                 forallb (fun l => bool_decide (l ∈ us)) (subLinks (extract doc))
             | _ => true
             end) us.

(** What a value returned or thrown leaves behind. *)
Definition returned {A} (r : Result A) : option A :=
  match r with Returned a _ => Some a | _ => None end.

Definition final {A} (r : Result A) : option State :=
  match r with Returned _ s | Thrown _ s => Some s | OutOfFuel => None end.

(** The compound key of a document, and the stores that upserts of
    [scrapeSite] build from the empty collection. *)
Definition key (d : Entry) : list N * list N := (e_id d, e_catalogId d).

Inductive written : list Entry -> Prop :=
| written_empty : written []
| written_upsert docs catalogId data videoUrl :
    written docs ->
    written (upsert (entryId videoUrl) catalogId
                    (video_entry catalogId data videoUrl) docs).

(** What [fetchPageData] returns and the events it leaves, by what the
    page meets at the URL. *)
Definition fetch_result (w : World) (url : list N) : option PageData :=
  match web w url with
  | Rendered doc => Some (extract doc)
  | _ => None
  end.

Definition user_agent (w : World) (page : nat) : string :=
  List.nth (random w page mod length userAgents)%nat userAgents ""%string.

Definition fetch_events (w : World) (url : list N) (browser page : nat)
  : list Event :=
  match web w url with
  | Rendered _ => [PageClose page; Evaluate page]
  | NavigationFails m => [PageClose page; ConsoleError url m]
  | EvaluationFails m => [PageClose page; ConsoleError url m; Evaluate page]
  end ++ [Goto page url; SetUserAgent page (user_agent w page);
          NewPage browser page].

Definition after_fetch (s : State) (events : list Event) : State :=
  {| db := db s; sitesToScrape := sitesToScrape s; fresh := S (fresh s);
     open_pages :=
       List.filter (fun p => negb (p =? fresh s)%nat) (fresh s :: open_pages s);
     open_browsers := open_browsers s;
     trace := events ++ trace s |}.

Definition stored (doc : Entry) (s : State) : State :=
  {| db := upsert (e_id doc) (e_catalogId doc) doc (db s);
     sitesToScrape := sitesToScrape s; fresh := fresh s;
     open_pages := open_pages s; open_browsers := open_browsers s;
     trace := trace s |}.

Definition logged (e : Event) (s : State) : State :=
  {| db := db s; sitesToScrape := sitesToScrape s; fresh := fresh s;
     open_pages := open_pages s; open_browsers := open_browsers s;
     trace := e :: trace s |}.

(** [s'] comes after [s] by the events [new], none of them a launch or a
    close of a browser, with the site list and the open browsers as they
    were, and with every page opened in [new] closed in [new]. *)
Definition frame (s s' : State) (new : list Event) : Prop :=
  trace s' = new ++ trace s /\ browsers new = []
  /\ sitesToScrape s' = sitesToScrape s
  /\ open_browsers s' = open_browsers s
  /\ pages_opened new = pages_closed new.

(** What a crawl from visited set [V] leaves when puppeteer accepts every
    call: it ends; the URLs it navigated to are pairwise distinct, were not
    in [V] and, when the crawl returns, are in the set it hands back; every
    URL of [seeds] outside [V] was navigated to; only a rejected write
    makes it throw. *)
Definition crawl_post (w : World) (V : gset (list N)) (seeds : list (list N))
    (s : State) (r : Result (gset (list N))) : Prop :=
  match r with
  | Returned V' s' =>
      V ⊆ V' /\
      exists new, frame s s' new /\ NoDup (gotos new)
        /\ (forall u, u ∈ gotos new -> (u ∉ V) /\ (u ∈ V'))
        /\ (forall u, u ∈ seeds -> u ∉ V -> u ∈ gotos new)
  | Thrown e s' =>
      (exists d, e = MongoError d /\ store_rejects w d = true) /\
      exists new, frame s s' new /\ NoDup (gotos new)
        /\ (forall u, u ∈ gotos new -> u ∉ V)
        /\ (forall u, u ∈ seeds -> u ∉ V -> u ∈ gotos new)
  | OutOfFuel => False
  end.

(** [s] with other rendering contexts and another trace. *)
Definition paged (s : State) (next : nat) (pages : list nat)
    (t : list Event) : State :=
  {| db := db s; sitesToScrape := sitesToScrape s; fresh := next;
     open_pages := pages; open_browsers := open_browsers s; trace := t |}.

(** [s'] comes after [s] by the events [new], none of them a launch or a
    close of a browser, with the store, the site list and the open
    browsers as they were. *)
Definition quiet (s s' : State) (new : list Event) : Prop :=
  trace s' = new ++ trace s /\ browsers new = []
  /\ db s' = db s /\ sitesToScrape s' = sitesToScrape s
  /\ open_browsers s' = open_browsers s.

(** What a crawl from visited set [V] leaves, whatever the surroundings
    reject: it ends; the URLs it navigated to are pairwise distinct and were
    not in [V]; when it returns they are in the set it hands back; every
    URL of [seeds] outside [V] was navigated to, unless a call to
    puppeteer was rejected. *)
Definition walk_ends (V : gset (list N)) (seeds : list (list N))
    (s : State) (r : Result (gset (list N))) : Prop :=
  match r with
  | Returned V' s' =>
      V ⊆ V' /\
      exists new, trace s' = new ++ trace s /\ NoDup (gotos new)
        /\ (forall u, u ∈ gotos new -> (u ∉ V) /\ (u ∈ V'))
        /\ (forall u, u ∈ seeds -> u ∉ V -> u ∈ gotos new)
  | Thrown e s' =>
      exists new, trace s' = new ++ trace s /\ NoDup (gotos new)
        /\ (forall u, u ∈ gotos new -> u ∉ V)
        /\ ((forall c m, e <> PuppeteerError c m) ->
            forall u, u ∈ seeds -> u ∉ V -> u ∈ gotos new)
  | OutOfFuel => False
  end.


(** The loop of [refreshScraping], and the state before and after it. *)
Definition walk_all (w : World) (fuel : nat) (browser : nat)
    (sites : list Site) : M unit :=
  for_of sites tt
    (fun site _ => scrapeSite w fuel site browser ∅ ;; ret tt).

Definition launched (s : State) : State :=
  {| db := db s; sitesToScrape := sitesToScrape s; fresh := S (fresh s);
     open_pages := open_pages s; open_browsers := fresh s :: open_browsers s;
     trace := Launch (fresh s) :: ConsoleLog Starting :: trace s |}.

Definition closed (browser : nat) (s : State) : State :=
  {| db := db s; sitesToScrape := sitesToScrape s; fresh := fresh s;
     open_pages := open_pages s;
     open_browsers :=
       List.filter (fun b => negb (b =? browser)%nat) (open_browsers s);
     trace := ConsoleLog Completed :: BrowserClose browser :: trace s |}.

(** ** Sample worlds *)

Module Sample.

(** A web given by its pages; every other URL fails to resolve. *)
Definition web_of (pages : list (list N * Visit)) (url : list N) : Visit :=
  match List.find (fun p => bool_decide (fst p = url)) pages with
  | Some p => snd p
  | None => NavigationFails (js "net::ERR_NAME_NOT_RESOLVED")
  end.

Definition page (origin title : string) (els : list Element) : Visit :=
  Rendered {| location_origin := js origin; document_title := js title;
              meta_description := None; meta_og_image := None;
              elements := els |}.

(** A world of these pages, in which the store rejects the writes that
    [rejects] tells, every read and every call to puppeteer is accepted,
    and [new URL] is as [URL.hostname] has it: the URLs that the samples
    register are [http] or [https] URLs with a plain host name, or have no
    scheme. *)
Definition world_of (pages : list (list N * Visit)) (rejects : Entry -> bool)
  : World :=
  {| web := web_of pages; store_rejects := rejects;
     read_rejects := fun _ => None;
     puppeteer_rejects := fun _ _ => None;
     random := fun page => page; hostname_of := URL.hostname |}.

Definition site (url id : string) : Site :=
  {| site_url := js url; site_id := js id |}.

Definition with_sites (sites : list Site) : State :=
  {| db := []; sitesToScrape := sites; fresh := 0%nat; open_pages := [];
     open_browsers := []; trace := [] |}.

(** Two pages that link to each other. *)
Definition cycle : World :=
  world_of
    [(js "https://a.example/",
      page "https://a.example" "A" [Anchor (js "https://a.example/b")]);
     (js "https://a.example/b",
      page "https://a.example" "B" [Anchor (js "https://a.example/")])]
    (fun _ => false).

(** The seed page of [https://example.com] with a media link and a link
    to a second page without links. *)
Definition example_com : World :=
  world_of
    [(js "https://example.com",
      page "https://example.com" "Home"
           [Anchor (js "https://example.com/movie.mp4");
            Anchor (js "https://example.com/page2")]);
     (js "https://example.com/page2", page "https://example.com" "" [])]
    (fun _ => false).

(** Three sites; the pages of the first and the third embed a player, the
    second is as given. *)
Definition three_sites_pages (second : Visit) : list (list N * Visit) :=
  [(js "https://one.example/",
    page "https://one.example" "One"
         [IFrame (js "https://streamtape.example/e/1")]);
   (js "https://two.example/", second);
   (js "https://three.example/",
    page "https://three.example" "Three"
         [IFrame (js "https://streamtape.example/e/3")])].

Definition three_sites : list Site :=
  [site "https://one.example/" "catalog-one-example";
   site "https://two.example/" "catalog-two-example";
   site "https://three.example/" "catalog-three-example"].

(** The second site times out. *)
Definition second_site_down : World :=
  world_of (three_sites_pages (NavigationFails (js "Navigation timeout")))
           (fun _ => false).


(** A page of [https://example.com] with a link to another host whose
    name starts with [example.com]. *)
Definition lookalike : World :=
  world_of
    [(js "https://example.com/",
      page "https://example.com" "Home"
           [Anchor (js "https://example.com.evil.com/")]);
     (js "https://example.com.evil.com/",
      page "https://example.com.evil.com" "Elsewhere" [])]
    (fun _ => false).

(** One URL that times out and one whose page script throws. *)
Definition failing : World :=
  world_of
    [(js "https://slow.example/", NavigationFails (js "Navigation timeout of 60000 ms exceeded"));
     (js "https://broken.example/", EvaluationFails (js "Evaluation failed"))]
    (fun _ => false).

(** A string with an unpaired surrogate. *)
Definition lone_d800 : list N := js "https://a b/" ++ [0xD800] ++ js ".mp4".

(** A world in which puppeteer rejects calls as [rejects] says. *)
Definition rejecting (rejects : list Event -> Call -> option (list N))
    (w : World) : World :=
  {| web := web w; store_rejects := store_rejects w;
     read_rejects := read_rejects w; puppeteer_rejects := rejects;
     random := random w; hostname_of := hostname_of w |}.

(** [example_com] with a browser that rejects [page.setUserAgent]. *)
Definition setUserAgent_rejected : World :=
  rejecting (fun _ c => match c with
                        | call_setUserAgent _ => Some (js "Target closed")
                        | _ => None
                        end) example_com.

(** [example_com] with a browser that rejects the first [close] of a
    page. *)
Definition first_close_rejected : World :=
  rejecting (fun t c => match c with
                        | call_page_close p =>
                            match pages_closed t with
                            | [_] => Some (js "Protocol error")
                            | _ => None
                            end
                        | _ => None
                        end) example_com.

(** [failing] with a browser that rejects every [close] of a page. *)
Definition close_rejected : World :=
  rejecting (fun _ c => match c with
                        | call_page_close _ => Some (js "Protocol error")
                        | _ => None
                        end) failing.


(** [example_com] before [initializeDB] has run: [db] is [undefined]. *)
Definition not_connected : World :=
  {| web := web example_com; store_rejects := fun _ => true;
     read_rejects :=
       fun _ => Some (js "Cannot read properties of undefined (reading 'collection')");
     puppeteer_rejects := fun _ _ => None;
     random := random example_com; hostname_of := hostname_of example_com |}.

End Sample.

(** ** The manifest and the catalog handler *)




(** The object that the catalog and the meta handler make of an entry. *)
Definition meta_of (entry : Entry) : Meta :=
  {| meta_id := e_id entry; meta_type := "movie"; meta_name := e_name entry;
     meta_poster := e_poster entry;
     meta_description_of := e_description entry |}.

(** [builder.defineCatalogHandler(async ({ id, extra }) => ...)]: the
    [metas] of the answer, on the [search] of [extra] ([None] when it has
    none) and with [String.prototype.toLowerCase] as [toLowerCase]. *)
Definition catalogHandler (toLowerCase : list N -> list N) (id : list N)
    (search : option (list N)) (docs : list Entry) : list Meta :=
  let query := match search with Some q => toLowerCase q | None => [] end in
  let entries := List.filter (fun d => bool_decide (e_catalogId d = id)) docs in
  let filteredEntries :=
    match query with
    | [] => entries
    | _ => List.filter (fun entry => includes query (toLowerCase (e_name entry)))
                       entries
    end in
  List.map meta_of filteredEntries.

(** [builder.defineCatalogHandler(async ({ id, extra }) => ...)], which
    does not guard its read either. *)
Definition defineCatalogHandler (w : World) (toLowerCase : list N -> list N)
    (id : list N) (search : option (list N)) : M (list Meta) :=
  let* docs := collection_read w id in
  ret (catalogHandler toLowerCase id search docs).

(** A site as [add_site] makes it: its URL has a host name and its id is
    the catalog id of that name. *)
Definition registered (w : World) (x : Site) : Prop :=
  exists h, hostname_of w (site_url x) = Some h /\ site_id x = catalogId_of h.

(** ** Vocabulary of the further statements *)

(** The URLs that the links of rendered pages lead to from a URL. *)
Inductive reachable (w : World) : list N -> list N -> Prop :=
| reach_here a : reachable w a a
| reach_link a doc l b :
    web w a = Rendered doc -> In l (subLinks (extract doc)) ->
    reachable w l b -> reachable w a b.

(** The store has a document under the key, and one that satisfies
    [Q]. *)
Definition holds (Q : Entry -> Prop) (s : State) (k : list N * list N) : Prop :=
  exists e, e ∈ db s /\ key e = k /\ Q e.

(** Every key that the first store holds, the second holds. *)
Definition keys_kept (Q : Entry -> Prop) (s s' : State) : Prop :=
  forall k, holds Q s k -> holds Q s' k.

(** A link among the media links of a rendered page of the web, and a
    document made of such a page and such a link. *)
Definition found (w : World) (data : PageData) (v : list N) : Prop :=
  exists u doc, web w u = Rendered doc /\ data = extract doc
                /\ In v (videos data).


(** What a crawl that meets no rejection covers: the URLs newly visited
    are the ones navigated to, each is reachable from a seed, the links of
    every newly visited page are visited, and each of its media links has
    a document under the catalog, one that satisfies [Q]. *)
Definition cover_post (w : World) (Q : Entry -> Prop) (cat : list N)
    (V : gset (list N)) (seeds : list (list N)) (s : State)
    (r : Result (gset (list N))) : Prop :=
  match r with
  | Returned V' s' =>
      (forall l, l ∈ seeds -> l ∈ V')
      /\ exists new, trace s' = new ++ trace s
         /\ (forall u, u ∈ V' -> u ∉ V -> u ∈ gotos new)
         /\ (forall u, u ∈ gotos new -> exists l, l ∈ seeds /\ reachable w l u)
         /\ (forall x doc l, x ∈ V' -> x ∉ V -> web w x = Rendered doc ->
               In l (subLinks (extract doc)) -> l ∈ V')
         /\ (forall x doc v, x ∈ V' -> x ∉ V -> web w x = Rendered doc ->
               In v (videos (extract doc)) ->
               holds Q s' (entryId v, cat))
  | _ => False
  end.

(** A document written under its own key, and a sequence of such writes. *)
Definition put (doc : Entry) (docs : list Entry) : list Entry :=
  upsert (e_id doc) (e_catalogId doc) doc docs.

Definition apply_writes (ops : list Entry) (docs : list Entry) : list Entry :=
  fold_left (fun d doc => put doc d) ops docs.

(** What a walk returns and writes does not depend on the state it starts
    from, nor on the browser. *)
Definition writes_of {A} (m : nat -> M A) (o : option (A * list Entry)) : Prop :=
  forall b s,
    match o with
    | Some (a, ops) =>
        exists s', m b s = Returned a s' /\ db s' = apply_writes ops (db s)
    | None => m b s = OutOfFuel
    end.

(** A relation on the documents, as a relation on states. *)
Definition on_db (Q : list Entry -> list Entry -> Prop) (s s' : State) : Prop :=
  Q (db s) (db s').

(** An entry as the walk writes them: filled display fields, a link that
    passed the media test, and the id of that link. *)
Definition well_made (e : Entry) : Prop :=
  e_name e <> [] /\ e_description e <> [] /\ e_poster e <> []
  /\ isVideoLink (e_videoUrl e) = true /\ e_id e = entryId (e_videoUrl e).

(** How many times a URL occurs in a list. *)
Definition times (u : list N) (l : list (list N)) : nat :=
  length (List.filter (fun v => bool_decide (v = u)) l).

(** [toLowerCase] on strings of ASCII characters. *)
Definition ascii_toLowerCase (s : list N) : list N := List.map fold_ascii s.

(** * Proofs *)

(** ** The two encodings *)

Module BufferFacts.
Import Buffer.

Ltac div_lia := zify; Z.to_euclidean_division_equations; lia.

Ltac split_ltb :=
  repeat match goal with
  | |- context [?a <? ?b] => destruct (N.ltb_spec a b)
  | H : context [?a <? ?b] |- _ => destruct (N.ltb_spec a b)
  end.

Lemma surrogate_tests c :
  is_high_surrogate c = true /\ 0xD800 <= c <= 0xDBFF \/
  is_low_surrogate c = true /\ 0xDC00 <= c <= 0xDFFF \/
  is_high_surrogate c = false /\ is_low_surrogate c = false
    /\ (c < 0xD800 \/ 0xDFFF < c).
Proof.
  unfold is_high_surrogate, is_low_surrogate.
  destruct (N.leb_spec 0xD800 c), (N.leb_spec c 0xDBFF),
    (N.leb_spec 0xDC00 c), (N.leb_spec c 0xDFFF); simpl; lia.
Qed.

Lemma is_high_surrogate_true c :
  is_high_surrogate c = true -> 0xD800 <= c <= 0xDBFF.
Proof. destruct (surrogate_tests c) as [?|[[? ?]|?]]; unfold is_high_surrogate, is_low_surrogate in *; intros; try lia;
  destruct (N.leb_spec 0xD800 c), (N.leb_spec c 0xDBFF); simpl in *; try lia; discriminate. Qed.

Lemma is_low_surrogate_true c :
  is_low_surrogate c = true -> 0xDC00 <= c <= 0xDFFF.
Proof. unfold is_low_surrogate; intros;
  destruct (N.leb_spec 0xDC00 c), (N.leb_spec c 0xDFFF); simpl in *; try lia; discriminate. Qed.

(** One code point of the Basic Multilingual Plane decodes to itself. *)
Lemma utf8_decode_bmp c r :
  c < 0x10000 ->
  utf8_decode (utf8_bytes c ++ r) = c :: utf8_decode r.
Proof.
  intros Hc. unfold utf8_bytes.
  split_ltb; try lia; cbn [app utf8_decode]; split_ltb;
    try (exfalso; div_lia); f_equal; div_lia.
Qed.

Lemma utf8_decode_pair hi lo r :
  0xD800 <= hi <= 0xDBFF -> 0xDC00 <= lo <= 0xDFFF ->
  utf8_decode (utf8_bytes (pair_code_point hi lo) ++ r)
  = hi :: lo :: utf8_decode r.
Proof.
  intros Hhi Hlo. unfold utf8_bytes, pair_code_point.
  split_ltb; try lia; cbn [app utf8_decode]; split_ltb;
    try (exfalso; div_lia).
  cbv zeta. f_equal; [div_lia | f_equal; div_lia].
Qed.

(** On a well-formed string [Buffer.from] is undone by [utf8_decode]. *)
Lemma utf8_decode_from s :
  isWellFormed s = true -> utf8_decode (from s) = s.
Proof.
  remember (length s) as n eqn:Hn. revert s Hn.
  induction n as [n IH] using lt_wf_ind. intros s Hn Hwf.
  destruct s as [|c rest]; [reflexivity|].
  cbn [isWellFormed from] in *.
  destruct (surrogate_tests c) as [[Hh Hr]|[[Hl Hr]|(Hh & Hl & Hr)]].
  - rewrite Hh in *. destruct rest as [|d rest']; [discriminate|].
    apply andb_true_iff in Hwf as [Hd Hwf]. rewrite Hd.
    rewrite utf8_decode_pair by auto using is_low_surrogate_true.
    do 2 f_equal. apply (IH (length rest')); [simpl in Hn; lia| reflexivity | assumption].
  - assert (is_high_surrogate c = false) as Hh.
    { unfold is_high_surrogate. destruct (N.leb_spec 0xD800 c), (N.leb_spec c 0xDBFF); simpl; lia. }
    rewrite Hh, Hl in *. discriminate.
  - rewrite Hh, Hl in *. simpl in Hwf.
    apply andb_true_iff in Hwf as [Hc Hwf]. apply N.ltb_lt in Hc.
    rewrite utf8_decode_bmp by assumption. f_equal.
    apply (IH (length rest)); [simpl in Hn; lia | reflexivity | assumption].
Qed.

(** [Buffer.from] makes bytes. *)
Lemma from_bytes s :
  isWellFormed s = true -> Forall (fun b => b < 256) (from s).
Proof.
  remember (length s) as n eqn:Hn. revert s Hn.
  induction n as [n IH] using lt_wf_ind. intros s Hn Hwf.
  destruct s as [|c rest]; [constructor|].
  cbn [isWellFormed from] in *.
  destruct (is_high_surrogate c) eqn:Hh.
  - destruct rest as [|d rest']; [discriminate|].
    apply andb_true_iff in Hwf as [Hd Hwf]. rewrite Hd.
    apply is_high_surrogate_true in Hh. apply is_low_surrogate_true in Hd.
    apply Forall_app. split.
    + unfold utf8_bytes, pair_code_point. split_ltb; try lia.
      repeat constructor; div_lia.
    + apply (IH (length rest')); [simpl in Hn; lia| reflexivity | assumption].
  - destruct (is_low_surrogate c) eqn:Hl; [discriminate|]. simpl in Hwf.
    apply andb_true_iff in Hwf as [Hc Hwf]. apply N.ltb_lt in Hc.
    apply Forall_app. split.
    + unfold utf8_bytes. split_ltb; try lia; repeat constructor; div_lia.
    + apply (IH (length rest)); [simpl in Hn; lia | reflexivity | assumption].
Qed.

Lemma digit_value_digit i : i < 64 -> digit_value (digit i) = i.
Proof.
  intros Hi. rewrite <- (N2Nat.id i). assert (N.to_nat i < 64)%nat as Hn by lia.
  generalize dependent (N.to_nat i). clear. intros n Hn.
  do 64 (destruct n as [|n]; [vm_compute; reflexivity|]). lia.
Qed.

Lemma digit_not_pad i : i < 64 -> (digit i =? pad) = false.
Proof.
  intros Hi. rewrite <- (N2Nat.id i). assert (N.to_nat i < 64)%nat as Hn by lia.
  generalize dependent (N.to_nat i). clear. intros n Hn.
  do 64 (destruct n as [|n]; [vm_compute; reflexivity|]). lia.
Qed.

(** [toString('base64')] is undone by [base64_decode]. *)
Lemma base64_decode_toString bs :
  Forall (fun b => b < 256) bs -> base64_decode (toString_base64 bs) = bs.
Proof.
  remember (length bs) as n eqn:Hn. revert bs Hn.
  induction n as [n IH] using lt_wf_ind. intros bs Hn Hb.
  destruct bs as [|a [|b [|c rest]]]; [reflexivity| | |].
  - apply Forall_cons in Hb as [Ha _]. cbn [toString_base64 base64_decode].
    rewrite N.eqb_refl, !digit_value_digit by div_lia. f_equal. div_lia.
  - apply Forall_cons in Hb as [Ha Hb]. apply Forall_cons in Hb as [Hb _].
    cbn [toString_base64 base64_decode].
    rewrite N.eqb_refl, digit_not_pad, !digit_value_digit by div_lia.
    f_equal; [|f_equal]; div_lia.
  - apply Forall_cons in Hb as [Ha Hb]. apply Forall_cons in Hb as [Hb Hc].
    apply Forall_cons in Hc as [Hc Hrest].
    cbn [toString_base64 base64_decode app].
    rewrite !digit_not_pad, !digit_value_digit by div_lia.
    cbn [app]. f_equal; [|f_equal; [|f_equal]]; try div_lia.
    apply (IH (length rest)); [simpl in Hn; lia | reflexivity | assumption].
Qed.
End BufferFacts.

(** The link of a well-formed string is recovered from its entry id. *)
Lemma entryId_decode u :
  isWellFormed u = true ->
  Buffer.utf8_decode (Buffer.base64_decode (entryId u)) = u.
Proof.
  intros Hwf. unfold entryId.
  rewrite BufferFacts.base64_decode_toString by by apply BufferFacts.from_bytes.
  by apply BufferFacts.utf8_decode_from.
Qed.

Example entryId_sample :
  entryId (js "https://example.com/movie.mp4")
  = js "aHR0cHM6Ly9leGFtcGxlLmNvbS9tb3ZpZS5tcDQ=".
Proof. vm_compute. reflexivity. Qed.

(** C1.  On well-formed strings (no unpaired surrogate, as every
    serialized URL is) the entry id is a function of the media URL and an
    injective one: two URLs are equal exactly when their ids are. *)
Theorem entryId_injective u1 u2 :
  isWellFormed u1 = true -> isWellFormed u2 = true ->
  (u1 = u2 <-> entryId u1 = entryId u2).
Proof.
  intros H1 H2. split; [intros ->; reflexivity|]. intros He.
  rewrite <- (entryId_decode u1 H1), <- (entryId_decode u2 H2).
  by rewrite He.
Qed.

(** ** The walk *)

Lemma call_run w `{!accepts_calls w} c s : call w c s = Returned tt s.
Proof. unfold call. by rewrite calls_accepted. Qed.

Lemma newPage_run w `{!accepts_calls w} browser s :
  newPage w browser s
  = Returned (fresh s)
      {| db := db s; sitesToScrape := sitesToScrape s; fresh := S (fresh s);
         open_pages := fresh s :: open_pages s;
         open_browsers := open_browsers s;
         trace := NewPage browser (fresh s) :: trace s |}.
Proof. unfold newPage, bind. by rewrite (call_run w). Qed.

Lemma setUserAgent_run w `{!accepts_calls w} page ua s :
  setUserAgent w page ua s = Returned tt (logged (SetUserAgent page ua) s).
Proof. unfold setUserAgent, bind, emit. by rewrite (call_run w). Qed.

Lemma page_close_run w `{!accepts_calls w} page s :
  page_close w page s
  = Returned tt
      {| db := db s; sitesToScrape := sitesToScrape s; fresh := fresh s;
         open_pages := List.filter (fun p => negb (p =? page)%nat) (open_pages s);
         open_browsers := open_browsers s;
         trace := PageClose page :: trace s |}.
Proof. unfold page_close, bind, emit. by rewrite (call_run w). Qed.

Lemma launch_run w `{!accepts_calls w} s :
  launch w s
  = Returned (fresh s)
      {| db := db s; sitesToScrape := sitesToScrape s; fresh := S (fresh s);
         open_pages := open_pages s;
         open_browsers := fresh s :: open_browsers s;
         trace := Launch (fresh s) :: trace s |}.
Proof. unfold launch, bind. by rewrite (call_run w). Qed.

Lemma browser_close_run w `{!accepts_calls w} browser s :
  browser_close w browser s
  = Returned tt
      {| db := db s; sitesToScrape := sitesToScrape s; fresh := fresh s;
         open_pages := open_pages s;
         open_browsers :=
           List.filter (fun b => negb (b =? browser)%nat) (open_browsers s);
         trace := BrowserClose browser :: trace s |}.
Proof. unfold browser_close, bind, emit. by rewrite (call_run w). Qed.

Lemma fetchPageData_run w `{!accepts_calls w} url browser s :
  fetchPageData w url browser s
  = Returned (fetch_result w url)
             (after_fetch s (fetch_events w url browser (fresh s))).
Proof.
  unfold fetchPageData, fetch_result, fetch_events, after_fetch, user_agent,
    try_catch, goto, evaluate, bind, emit, throw, ret.
  rewrite (newPage_run w). cbv iota beta.
  rewrite (setUserAgent_run w). cbv iota beta.
  unfold logged. cbn [db sitesToScrape fresh open_pages open_browsers trace].
  destruct (web w url); cbv iota beta; rewrite (page_close_run w);
    reflexivity.
Qed.


Lemma gotos_app t1 t2 : gotos (t1 ++ t2) = gotos t1 ++ gotos t2.
Proof. apply flat_map_app. Qed.

Lemma browsers_app t1 t2 : browsers (t1 ++ t2) = browsers t1 ++ browsers t2.
Proof. apply List.filter_app. Qed.

Lemma pages_opened_app t1 t2 :
  pages_opened (t1 ++ t2) = pages_opened t1 ++ pages_opened t2.
Proof. apply flat_map_app. Qed.

Lemma pages_closed_app t1 t2 :
  pages_closed (t1 ++ t2) = pages_closed t1 ++ pages_closed t2.
Proof. apply flat_map_app. Qed.

Lemma frame_refl s : frame s s [].
Proof. repeat split. Qed.

Lemma frame_trans s s1 s2 n1 n2 :
  frame s s1 n1 -> frame s1 s2 n2 -> frame s s2 (n2 ++ n1).
Proof.
  intros (Ht1 & Hb1 & Hs1 & Ho1 & Hp1) (Ht2 & Hb2 & Hs2 & Ho2 & Hp2).
  unfold frame. rewrite Ht2, Ht1, browsers_app, Hb1, Hb2, Hs2, Hs1, Ho2, Ho1.
  rewrite pages_opened_app, pages_closed_app, Hp1, Hp2, app_assoc.
  repeat split.
Qed.

Lemma store_videos_post w cat data vids s :
  match for_of vids tt (fun v _ => store_video w cat data v) s with
  | Returned _ s' => frame s s' []
  | Thrown e s' =>
      (exists d, e = MongoError d /\ store_rejects w d = true)
      /\ frame s s' []
  | OutOfFuel => False
  end.
Proof.
  revert s. induction vids as [|v vids IH]; intros s; [apply frame_refl|].
  cbn [for_of]. unfold bind at 1, store_video at 1, updateOne.
  destruct (store_rejects w _) eqn:Hrej.
  - split; [eauto | apply frame_refl].
  - match goal with |- context [for_of vids tt _ ?s1] => specialize (IH s1) end.
    destruct (for_of vids tt _ _); exact IH.
Qed.

Lemma NoDup_gotos_app (V : gset (list N)) t1 t2 :
  NoDup (gotos t1) -> NoDup (gotos t2) ->
  (forall u, u ∈ gotos t1 -> u ∈ V) -> (forall u, u ∈ gotos t2 -> u ∉ V) ->
  NoDup (gotos (t2 ++ t1)).
Proof.
  intros H1 H2 Hin Hout. rewrite gotos_app. apply NoDup_app.
  split; [done|]. split; [|done]. intros u Hu2 Hu1.
  apply (Hout u Hu2), Hin, Hu1.
Qed.

(** The measure of the walk: the URLs of the graph not yet visited. *)
Lemma size_unvisited_mono (U V V1 : gset (list N)) :
  V ⊆ V1 -> (size (U ∖ V1) <= size (U ∖ V))%nat.
Proof.
  intros HV. apply subseteq_size. intros x Hx.
  apply elem_of_difference in Hx as [Hx Hn]. apply elem_of_difference.
  split; [done|]. intros Hv. apply Hn, HV, Hv.
Qed.

Lemma size_unvisited_visit (U V : gset (list N)) url :
  url ∈ U -> url ∉ V -> (size (U ∖ ({[url]} ∪ V)) < size (U ∖ V))%nat.
Proof.
  intros Hin Hv. apply subset_size. split.
  - intros x Hx. apply elem_of_difference in Hx as [Hx Hn].
    apply elem_of_difference. split; [done|].
    intros Hxv. apply Hn, elem_of_union_r, Hxv.
  - intros Hsub.
    assert (url ∈ U ∖ ({[url]} ∪ V)) as Hu
      by (apply Hsub, elem_of_difference; done).
    apply elem_of_difference in Hu as [_ Hu].
    apply Hu, elem_of_union_l. by apply elem_of_singleton.
Qed.

Lemma size_unvisited_fresh (U : gset (list N)) : (size (U ∖ ∅) <= size U)%nat.
Proof.
  apply subseteq_size. intros x Hx. by apply elem_of_difference in Hx as [Hx _].
Qed.

Section Walk.
Context (w : World) (U : gset (list N)) (HU : closed_under w U).
Context `{Hcalm : !accepts_calls w}.

Lemma crawl_links_post fuel :
  (forall site b V s, site_url site ∈ U -> (size (U ∖ V) < fuel)%nat ->
     crawl_post w V [site_url site] s (scrapeSite w fuel site b V s)) ->
  forall links cat b V s,
    (forall l, l ∈ links -> l ∈ U) -> (size (U ∖ V) < fuel)%nat ->
    crawl_post w V [] s
      (for_of links V
         (fun l v => scrapeSite w fuel {| site_url := l; site_id := cat |} b v) s).
Proof.
  intros IH links. induction links as [|l links IHl]; intros cat b V s Hin Hsz.
  - unfold for_of, ret, crawl_post. split; [done|]. exists [].
    split; [apply frame_refl|]. split; [constructor|].
    split; intros u Hu; inversion Hu.
  - cbn [for_of]. unfold bind.
    specialize (IH {| site_url := l; site_id := cat |} b V s).
    cbn [site_url] in IH.
    specialize (IH ltac:(apply Hin; left) Hsz).
    destruct (scrapeSite w fuel _ b V s) as [V1 s1|e s1|]; [| |done].
    + destruct IH as (HV & new1 & Hf1 & Hnd1 & Hg1 & _).
      pose proof (size_unvisited_mono U V V1 HV) as Hle.
      specialize (IHl cat b V1 s1 ltac:(intros; apply Hin; by right) ltac:(lia)).
      destruct (for_of links V1 _ s1) as [V2 s2|e s2|]; [| |done].
      * destruct IHl as (HV2 & new2 & Hf2 & Hnd2 & Hg2 & _).
        split; [clear -HV HV2; set_solver|]. exists (new2 ++ new1).
        split; [by eapply frame_trans|].
        split; [apply (NoDup_gotos_app V1 _ _ Hnd1 Hnd2); intros u Hu;
                [apply (Hg1 u Hu) | apply (Hg2 u Hu)]|].
        split; [|intros u Hu; inversion Hu].
        intros u Hu. rewrite gotos_app in Hu.
        apply elem_of_app in Hu as [Hu|Hu].
        -- destruct (Hg2 u Hu) as [Hn Hi]. split; [|done].
           intros Hv. apply Hn, HV, Hv.
        -- destruct (Hg1 u Hu) as [Hn Hi]. split; [done|]. apply HV2, Hi.
      * destruct IHl as (He & new2 & Hf2 & Hnd2 & Hg2 & _).
        split; [done|]. exists (new2 ++ new1).
        split; [by eapply frame_trans|].
        split; [apply (NoDup_gotos_app V1 _ _ Hnd1 Hnd2); intros u Hu;
                [apply (Hg1 u Hu) | apply (Hg2 u Hu)]|].
        split; [|intros u Hu; inversion Hu].
        intros u Hu. rewrite gotos_app in Hu.
        apply elem_of_app in Hu as [Hu|Hu].
        -- intros Hv. apply (Hg2 u Hu), HV, Hv.
        -- apply (Hg1 u Hu).
    + destruct IH as (He & new1 & Hf1 & Hnd1 & Hg1 & _).
      split; [done|]. exists new1. split; [done|]. split; [done|].
      split; [done|]. intros u Hu. inversion Hu.
Qed.

Lemma frame_fetch s url evs :
  browsers evs = [] -> pages_opened evs = pages_closed evs ->
  frame s
    (after_fetch
       {| db := db s; sitesToScrape := sitesToScrape s; fresh := fresh s;
          open_pages := open_pages s; open_browsers := open_browsers s;
          trace := ConsoleLog (Scraping url) :: trace s |} evs)
    (evs ++ [ConsoleLog (Scraping url)]).
Proof.
  intros Hb Hp. unfold frame, after_fetch.
  cbn [trace sitesToScrape open_browsers].
  rewrite browsers_app, pages_opened_app, pages_closed_app, Hb, Hp, <- app_assoc.
  repeat split.
Qed.

Lemma gotos_fetch url b p :
  gotos (fetch_events w url b p ++ [ConsoleLog (Scraping url)]) = [url].
Proof. unfold fetch_events. destruct (web w url); reflexivity. Qed.

Lemma browsers_fetch url b p : browsers (fetch_events w url b p) = [].
Proof. unfold fetch_events. destruct (web w url); reflexivity. Qed.

Lemma pages_fetch url b p :
  pages_opened (fetch_events w url b p) = pages_closed (fetch_events w url b p).
Proof. unfold fetch_events. destruct (web w url); reflexivity. Qed.

Lemma scrapeSite_post fuel :
  forall site b V s,
    site_url site ∈ U -> (size (U ∖ V) < fuel)%nat ->
    crawl_post w V [site_url site] s (scrapeSite w fuel site b V s).
Proof.
  induction fuel as [|fuel IH]; intros site b V s Hin Hsz; [lia|].
  cbn [scrapeSite]. destruct (decide (site_url site ∈ V)) as [Hv|Hv].
  - unfold ret, crawl_post. split; [done|]. exists [].
    split; [apply frame_refl|]. split; [constructor|].
    split; [intros u Hu; inversion Hu|].
    intros u Hu Hn. apply list_elem_of_singleton in Hu as ->. done.
  - set (url := site_url site) in *. set (V1 := {[url]} ∪ V).
    assert (V ⊆ V1) as HV1 by apply union_subseteq_r.
    assert (url ∈ V1) as Hu1 by (apply elem_of_union_l; by apply elem_of_singleton).
    assert (size (U ∖ V1) < fuel)%nat as Hsz1.
    { pose proof (size_unvisited_visit U V url Hin Hv) as Hlt.
      fold V1 in Hlt. lia. }
    unfold bind at 1, emit at 1. unfold bind at 1.
    rewrite (fetchPageData_run w). cbn [fresh].
    pose proof (frame_fetch s url _ (browsers_fetch url b (fresh s))
                  (pages_fetch url b (fresh s))) as Hff.
    pose proof (gotos_fetch url b (fresh s)) as Hgf.
    set (evs := fetch_events w url b (fresh s)) in *.
    set (s1 := after_fetch _ evs) in *. clearbody s1 evs.
    assert (forall u, u ∈ [url] -> u ∉ V) as Hout.
    { intros u Hu. apply list_elem_of_singleton in Hu as ->. done. }
    assert (forall u, u ∈ [url] -> u ∈ V1) as Hin1.
    { intros u Hu. apply list_elem_of_singleton in Hu as ->. done. }
    unfold fetch_result.
    destruct (web w url) as [doc|m|m] eqn:Hweb.
    + (* the page was rendered *)
      unfold bind at 1.
      pose proof (store_videos_post w (site_id site) (extract doc)
                    (videos (extract doc)) s1) as Hst.
      destruct (for_of (videos (extract doc)) tt _ s1) as [[] s2|e s2|];
        [| |done].
      * pose proof (crawl_links_post fuel IH (subLinks (extract doc))
                      (site_id site) b V1 s2
                      (fun l Hl => HU url doc l Hin Hweb
                                     (proj1 (list_elem_of_In _ _) Hl)) Hsz1) as Hl.
        destruct (for_of (subLinks (extract doc)) V1 _ s2) as [V2 s3|e s3|];
          [| |done].
        -- destruct Hl as (HV & new & Hf & Hnd & Hg & _).
           unfold crawl_post. split; [etrans; done|].
           exists (new ++ [] ++ evs ++ [ConsoleLog (Scraping url)]).
           split; [eapply frame_trans; [eapply frame_trans|]; done|].
           cbn [app].
           split; [apply (NoDup_gotos_app V1); rewrite ?Hgf;
                   [apply NoDup_singleton | done | done
                   | intros u Hu; apply (Hg u Hu)]|].
           rewrite gotos_app, Hgf. split.
           ++ intros u Hu. apply elem_of_app in Hu as [Hu|Hu].
              ** destruct (Hg u Hu) as [Hn Hi]. split; [|done].
                 intros Hv'. apply Hn, HV1, Hv'.
              ** split; [by apply Hout|]. by apply HV, Hin1.
           ++ intros u Hu _. apply elem_of_app. by right.
        -- destruct Hl as (He & new & Hf & Hnd & Hg & _).
           unfold crawl_post. split; [done|].
           exists (new ++ [] ++ evs ++ [ConsoleLog (Scraping url)]).
           split; [eapply frame_trans; [eapply frame_trans|]; done|].
           cbn [app].
           split; [apply (NoDup_gotos_app V1); rewrite ?Hgf;
                   [apply NoDup_singleton | done | done | done]|].
           rewrite gotos_app, Hgf. split.
           ++ intros u Hu. apply elem_of_app in Hu as [Hu|Hu].
              ** intros Hv'. apply (Hg u Hu), HV1, Hv'.
              ** by apply Hout.
           ++ intros u Hu _. apply elem_of_app. by right.
      * destruct Hst as [He Hst]. unfold crawl_post. split; [done|].
        exists ([] ++ evs ++ [ConsoleLog (Scraping url)]).
        split; [eapply frame_trans; done|]. cbn [app]. rewrite Hgf.
        split; [apply NoDup_singleton|]. split; [done|]. by intros u Hu _.
    + (* navigation failed *)
      unfold ret, crawl_post. split; [done|].
      exists (evs ++ [ConsoleLog (Scraping url)]). split; [done|]. rewrite Hgf.
      split; [apply NoDup_singleton|]. split; [|by intros u Hu _].
      intros u Hu. split; [by apply Hout | by apply Hin1].
    + (* evaluation failed *)
      unfold ret, crawl_post. split; [done|].
      exists (evs ++ [ConsoleLog (Scraping url)]). split; [done|]. rewrite Hgf.
      split; [apply NoDup_singleton|]. split; [|by intros u Hu _].
      intros u Hu. split; [by apply Hout | by apply Hin1].
Qed.
End Walk.

(** ** What the store sees of a walk *)

Lemma bind_run {A B} (m : M A) (k : A -> M B) s :
  bind m k s = match m s with
               | Returned a s' => k a s'
               | Thrown e s' => Thrown e s'
               | OutOfFuel => OutOfFuel
               end.
Proof. reflexivity. Qed.

Lemma store_video_run w cat data v s :
  store_video w cat data v s =
  if store_rejects w (video_entry cat data v)
  then Thrown (MongoError (video_entry cat data v)) s
  else Returned tt (stored (video_entry cat data v) s).
Proof. reflexivity. Qed.

Lemma emit_run e s : emit e s = Returned tt (logged e s).
Proof. reflexivity. Qed.







Lemma refreshScraping_run w `{!accepts_calls w} fuel s :
  refreshScraping w fuel s =
  match walk_all w fuel (fresh s) (sitesToScrape s) (launched s) with
  | Returned _ s' => Returned tt (closed (fresh s) s')
  | Thrown e s' => Thrown e s'
  | OutOfFuel => OutOfFuel
  end.
Proof.
  unfold refreshScraping, walk_all. rewrite bind_run, emit_run, bind_run.
  rewrite (launch_run w). unfold bind at 1 2.
  fold (launched s). cbn [fresh logged].
  destruct (for_of _ _ _ _) as [[] s'| |]; [|reflexivity..].
  rewrite bind_run, (browser_close_run w). reflexivity.
Qed.

Section Refresh.
Context (w : World) (U : gset (list N)) (HU : closed_under w U).
Context `{Hcalm : !accepts_calls w}.
Context (Haccept : forall d, store_rejects w d = false).

Lemma walk_all_post fuel b sites s :
  (forall x, x ∈ sites -> site_url x ∈ U) -> (size U < fuel)%nat ->
  exists s' new,
    walk_all w fuel b sites s = Returned tt s' /\ frame s s' new
    /\ forall x, x ∈ sites -> site_url x ∈ gotos new.
Proof.
  intros Hin Hsz. revert s. induction sites as [|x sites IH]; intros s.
  - exists s, []. split; [done|]. split; [apply frame_refl|].
    intros x Hx. inversion Hx.
  - unfold walk_all. cbn [for_of]. rewrite !bind_run.
    assert (size (U ∖ ∅) < fuel)%nat as Hsz'.
    { pose proof (size_unvisited_fresh U). lia. }
    pose proof (scrapeSite_post w U HU fuel x b ∅ s
                  ltac:(apply Hin; left) Hsz') as Hx.
    destruct (scrapeSite w fuel x b ∅ s) as [V1 s1|e s1|]; [| |done].
    + destruct Hx as (_ & new1 & Hf1 & _ & _ & Hseed).
      destruct (IH ltac:(intros; apply Hin; by right) s1)
        as (s2 & new2 & Hrun & Hf2 & Hseeds).
      exists s2, (new2 ++ new1). split; [exact Hrun|].
      split; [by eapply frame_trans|].
      intros y Hy. rewrite gotos_app. apply elem_of_app.
      apply elem_of_cons in Hy as [->|Hy]; [right|left; by apply Hseeds].
      apply Hseed; [left|apply not_elem_of_empty].
    + destruct Hx as ((d & _ & Hd) & _). by rewrite Haccept in Hd.
Qed.

Lemma refreshScraping_post fuel s :
  (forall x, x ∈ sitesToScrape s -> site_url x ∈ U) -> (size U < fuel)%nat ->
  exists s1 new,
    walk_all w fuel (fresh s) (sitesToScrape s) (launched s) = Returned tt s1
    /\ refreshScraping w fuel s = Returned tt (closed (fresh s) s1)
    /\ frame (launched s) s1 new
    /\ forall x, x ∈ sitesToScrape s -> site_url x ∈ gotos new.
Proof.
  intros Hin Hsz.
  destruct (walk_all_post fuel (fresh s) (sitesToScrape s) (launched s) Hin Hsz)
    as (s1 & new & Hrun & Hf & Hseeds).
  exists s1, new. rewrite (refreshScraping_run w), Hrun. done.
Qed.
End Refresh.


(** More fuel does not change how a walk ends. *)
Lemma crawl_links_fuel w fuel :
  (forall site b V s,
     scrapeSite w fuel site b V s <> OutOfFuel ->
     scrapeSite w (S fuel) site b V s = scrapeSite w fuel site b V s) ->
  forall links cat b V s,
    for_of links V
      (fun l v => scrapeSite w fuel {| site_url := l; site_id := cat |} b v) s
    <> OutOfFuel ->
    for_of links V
      (fun l v => scrapeSite w (S fuel) {| site_url := l; site_id := cat |} b v) s
    = for_of links V
        (fun l v => scrapeSite w fuel {| site_url := l; site_id := cat |} b v) s.
Proof.
  intros IH links. induction links as [|l links IHl]; intros cat b V s Hr;
    [reflexivity|].
  cbn [for_of] in *. rewrite bind_run in Hr. rewrite !bind_run.
  rewrite IH by (intros Hf; by rewrite Hf in Hr).
  destruct (scrapeSite w fuel _ b V s) as [V1 s1|e s1|]; [|done|done].
  by apply IHl.
Qed.

(** One unfolding of [scrapeSite]. *)
Lemma scrapeSite_S w fuel site b V :
  scrapeSite w (S fuel) site b V =
  if decide (site_url site ∈ V) then ret V
  else
    emit (ConsoleLog (Scraping (site_url site))) ;;
    let* data := fetchPageData w (site_url site) b in
    match data with
    | None => ret ({[site_url site]} ∪ V)
    | Some data =>
        for_of (videos data) tt
          (fun videoUrl _ => store_video w (site_id site) data videoUrl) ;;
        for_of (subLinks data) ({[site_url site]} ∪ V)
          (fun subLink visited =>
             scrapeSite w fuel
               {| site_url := subLink; site_id := site_id site |} b visited)
    end.
Proof. reflexivity. Qed.

Lemma scrapeSite_fuel_S w fuel :
  forall site b V s,
    scrapeSite w fuel site b V s <> OutOfFuel ->
    scrapeSite w (S fuel) site b V s = scrapeSite w fuel site b V s.
Proof.
  induction fuel as [|fuel IH]; intros site b V s Hr; [done|].
  rewrite (scrapeSite_S w (S fuel)). rewrite (scrapeSite_S w fuel) in *.
  destruct (decide (site_url site ∈ V)); [reflexivity|].
  rewrite bind_run, emit_run, bind_run in Hr.
  rewrite !bind_run, !emit_run, !bind_run.
  destruct (fetchPageData w (site_url site) b _) as [[data|] s1|e s1|];
    [|reflexivity..].
  rewrite bind_run in Hr. rewrite !bind_run.
  destruct (for_of (videos data) tt _ _) as [[] s2|e s2|]; [|done|done].
  by apply crawl_links_fuel.
Qed.

Lemma scrapeSite_fuel_le w fuel fuel' site b V s :
  (fuel <= fuel')%nat ->
  scrapeSite w fuel site b V s <> OutOfFuel ->
  scrapeSite w fuel' site b V s = scrapeSite w fuel site b V s.
Proof.
  induction 1 as [|fuel' Hle IH]; [done|]. intros Hr.
  rewrite scrapeSite_fuel_S; rewrite IH; done.
Qed.

(** ** Walks, whatever the surroundings reject *)

Ltac trace_prefix t base :=
  lazymatch t with
  | base => constr:(@nil Event)
  | ?e :: ?t' => let r := trace_prefix t' base in constr:(e :: r)
  end.

(** How [fetchPageData] ends: by returning after one navigation, or by
    throwing what puppeteer rejected [newPage], [setUserAgent] or [close]
    with; the store, the site list and the browsers are left alone. *)
Lemma fetchPageData_ends w url b s :
  match fetchPageData w url b s with
  | Returned data s' =>
      (exists evs, quiet s s' evs /\ gotos evs = [url])
      /\ match data with
         | Some d => exists doc, web w url = Rendered doc /\ d = extract doc
         | None => True
         end
  | Thrown e s' =>
      (exists c m t, e = PuppeteerError c m /\ puppeteer_rejects w t c = Some m)
      /\ exists evs, quiet s s' evs /\ (gotos evs = [] \/ gotos evs = [url])
  | OutOfFuel => False
  end.
Proof.
  unfold fetchPageData, try_catch, goto, evaluate, newPage, setUserAgent,
    page_close.
  repeat first
    [ rewrite bind_run | rewrite emit_run
    | progress unfold call, throw, ret, logged
    | progress cbn [db sitesToScrape fresh open_pages open_browsers trace]
    | progress cbv beta iota
    | match goal with
      | |- context [puppeteer_rejects w ?t ?c] =>
          destruct (puppeteer_rejects w t c) eqn:?
      end
    | match goal with
      | |- context [web w url] => destruct (web w url) eqn:?
      end ].
  all: repeat split; eauto 10.
  all: lazymatch goal with
       | |- exists evs, quiet ?s0 ?s' evs /\ _ =>
           let t := eval cbn [trace] in (trace s') in
           let evs := trace_prefix t (trace s0) in
           exists evs; split; [by repeat split|]
       end.
  all: cbn; eauto.
Qed.

Lemma fetchPageData_paged w url b s :
  match fetchPageData w url b s with
  | Returned _ s' | Thrown _ s' => exists next pages t, s' = paged s next pages t
  | OutOfFuel => False
  end.
Proof.
  unfold fetchPageData, try_catch, goto, evaluate, newPage, setUserAgent,
    page_close.
  repeat first
    [ rewrite bind_run | rewrite emit_run
    | progress unfold call, throw, ret, logged
    | progress cbn [db sitesToScrape fresh open_pages open_browsers trace]
    | progress cbv beta iota
    | match goal with
      | |- context [puppeteer_rejects w ?t ?c] =>
          destruct (puppeteer_rejects w t c) eqn:?
      end
    | match goal with
      | |- context [web w url] => destruct (web w url) eqn:?
      end ].
  all: try by (eexists _, _, _; unfold paged; reflexivity).
  by exists (fresh s), (open_pages s), (trace s); destruct s.
Qed.

(** One unfolding of [refreshScraping], by what puppeteer rejects. *)
Lemma refreshScraping_cases w fuel s :
  refreshScraping w fuel s =
  match puppeteer_rejects w (ConsoleLog Starting :: trace s) call_launch with
  | Some m =>
      Thrown (PuppeteerError call_launch m) (logged (ConsoleLog Starting) s)
  | None =>
      match walk_all w fuel (fresh s) (sitesToScrape s) (launched s) with
      | Returned _ s1 =>
          match puppeteer_rejects w (BrowserClose (fresh s) :: trace s1)
                  (call_browser_close (fresh s)) with
          | Some m =>
              Thrown (PuppeteerError (call_browser_close (fresh s)) m)
                     (logged (BrowserClose (fresh s)) s1)
          | None => Returned tt (closed (fresh s) s1)
          end
      | Thrown e s1 => Thrown e s1
      | OutOfFuel => OutOfFuel
      end
  end.
Proof.
  unfold refreshScraping, walk_all.
  rewrite bind_run, emit_run. cbv beta iota.
  rewrite bind_run. unfold launch at 1. rewrite bind_run. unfold call at 1.
  cbn [logged db sitesToScrape fresh open_pages open_browsers trace].
  destruct (puppeteer_rejects w _ call_launch); [reflexivity|].
  cbv beta iota. rewrite bind_run. cbv beta iota.
  cbn [logged db sitesToScrape fresh open_pages open_browsers trace].
  fold (launched s). rewrite bind_run.
  destruct (for_of _ _ _ (launched s)) as [[] s1| |]; [|reflexivity..].
  rewrite bind_run. unfold browser_close at 1.
  rewrite bind_run, emit_run. cbv beta iota. rewrite bind_run.
  unfold call at 1. cbn [trace logged].
  destruct (puppeteer_rejects w _ (call_browser_close (fresh s)));
    reflexivity.
Qed.

Section Ends.
Context (w : World) (U : gset (list N)) (HU : closed_under w U).

Lemma crawl_links_ends fuel :
  (forall site b V s, site_url site ∈ U -> (size (U ∖ V) < fuel)%nat ->
     walk_ends V [site_url site] s (scrapeSite w fuel site b V s)) ->
  forall links cat b V s,
    (forall l, l ∈ links -> l ∈ U) -> (size (U ∖ V) < fuel)%nat ->
    walk_ends V [] s
      (for_of links V
         (fun l v => scrapeSite w fuel {| site_url := l; site_id := cat |} b v) s).
Proof.
  intros IH links. induction links as [|l links IHl]; intros cat b V s Hin Hsz.
  - unfold for_of, ret, walk_ends. split; [done|]. exists [].
    split; [done|]. split; [constructor|].
    split; intros u Hu; inversion Hu.
  - cbn [for_of]. rewrite bind_run.
    specialize (IH {| site_url := l; site_id := cat |} b V s).
    cbn [site_url] in IH.
    specialize (IH ltac:(apply Hin; left) Hsz).
    destruct (scrapeSite w fuel _ b V s) as [V1 s1|e s1|]; [| |done].
    + destruct IH as (HV & new1 & Hf1 & Hnd1 & Hg1 & _).
      pose proof (size_unvisited_mono U V V1 HV) as Hle.
      specialize (IHl cat b V1 s1 ltac:(intros; apply Hin; by right) ltac:(lia)).
      destruct (for_of links V1 _ s1) as [V2 s2|e s2|]; [| |done].
      * destruct IHl as (HV2 & new2 & Hf2 & Hnd2 & Hg2 & _).
        split; [clear -HV HV2; set_solver|]. exists (new2 ++ new1).
        split; [by rewrite Hf2, Hf1, app_assoc|].
        split; [apply (NoDup_gotos_app V1 _ _ Hnd1 Hnd2); intros u Hu;
                [apply (Hg1 u Hu) | apply (Hg2 u Hu)]|].
        split; [|intros u Hu; inversion Hu].
        intros u Hu. rewrite gotos_app in Hu.
        apply elem_of_app in Hu as [Hu|Hu].
        -- destruct (Hg2 u Hu) as [Hn Hi]. split; [|done].
           intros Hv. apply Hn, HV, Hv.
        -- destruct (Hg1 u Hu) as [Hn Hi]. split; [done|]. apply HV2, Hi.
      * destruct IHl as (new2 & Hf2 & Hnd2 & Hg2 & _).
        exists (new2 ++ new1).
        split; [by rewrite Hf2, Hf1, app_assoc|].
        split; [apply (NoDup_gotos_app V1 _ _ Hnd1 Hnd2); intros u Hu;
                [apply (Hg1 u Hu) | apply (Hg2 u Hu)]|].
        split; [|intros _ u Hu; inversion Hu].
        intros u Hu. rewrite gotos_app in Hu.
        apply elem_of_app in Hu as [Hu|Hu].
        -- intros Hv. apply (Hg2 u Hu), HV, Hv.
        -- apply (Hg1 u Hu).
    + destruct IH as (new1 & Hf1 & Hnd1 & Hg1 & _).
      exists new1. split; [done|]. split; [done|].
      split; [done|]. intros _ u Hu. inversion Hu.
Qed.

Lemma scrapeSite_ends fuel :
  forall site b V s,
    site_url site ∈ U -> (size (U ∖ V) < fuel)%nat ->
    walk_ends V [site_url site] s (scrapeSite w fuel site b V s).
Proof.
  induction fuel as [|fuel IH]; intros site b V s Hin Hsz; [lia|].
  cbn [scrapeSite]. destruct (decide (site_url site ∈ V)) as [Hv|Hv].
  - unfold ret, walk_ends. split; [done|]. exists [].
    split; [done|]. split; [constructor|].
    split; [intros u Hu; inversion Hu|].
    intros u Hu Hn. apply list_elem_of_singleton in Hu as ->. done.
  - set (url := site_url site) in *. set (V1 := {[url]} ∪ V).
    assert (V ⊆ V1) as HV1 by apply union_subseteq_r.
    assert (url ∈ V1) as Hu1 by (apply elem_of_union_l; by apply elem_of_singleton).
    assert (size (U ∖ V1) < fuel)%nat as Hsz1.
    { pose proof (size_unvisited_visit U V url Hin Hv) as Hlt.
      fold V1 in Hlt. lia. }
    assert (forall u, u ∈ [url] -> u ∉ V) as Hout.
    { intros u Hu. apply list_elem_of_singleton in Hu as ->. done. }
    assert (forall u, u ∈ [url] -> u ∈ V1) as Hin1.
    { intros u Hu. apply list_elem_of_singleton in Hu as ->. done. }
    assert (forall evs, gotos (evs ++ [ConsoleLog (Scraping url)]) = gotos evs)
      as Hlog.
    { intros evs. rewrite gotos_app. apply app_nil_r. }
    rewrite bind_run, emit_run, bind_run.
    pose proof (fetchPageData_ends w url b
                  (logged (ConsoleLog (Scraping url)) s)) as Hf.
    destruct (fetchPageData w url b _) as [data s1|e s1|]; [| |done].
    + destruct Hf as [(evs & (Ht & _) & Hgf) Hdata].
      cbn [trace logged] in Ht.
      assert (trace s1 = (evs ++ [ConsoleLog (Scraping url)]) ++ trace s) as Ht1.
      { by rewrite Ht, <- app_assoc. }
      specialize (Hlog evs). rewrite Hgf in Hlog.
      set (new0 := evs ++ [ConsoleLog (Scraping url)]) in *.
      clearbody new0. clear Ht evs Hgf.
      destruct data as [data|].
      * (* the page was rendered *)
        destruct Hdata as (doc & Hweb & ->). rewrite bind_run.
        pose proof (store_videos_post w (site_id site) (extract doc)
                      (videos (extract doc)) s1) as Hst.
        destruct (for_of (videos (extract doc)) tt _ s1) as [[] s2|e s2|];
          [| |done].
        -- destruct Hst as (Ht2 & _). cbn [app] in Ht2.
           pose proof (crawl_links_ends fuel IH (subLinks (extract doc))
                         (site_id site) b V1 s2
                         (fun l Hl => HU url doc l Hin Hweb
                                        (proj1 (list_elem_of_In _ _) Hl)) Hsz1) as Hl.
           destruct (for_of (subLinks (extract doc)) V1 _ s2) as [V2 s3|e s3|];
             [| |done].
           ++ destruct Hl as (HV & new & Hf & Hnd & Hg & _).
              unfold walk_ends. split; [etrans; done|].
              exists (new ++ new0).
              split; [by rewrite Hf, Ht2, Ht1, app_assoc|].
              split; [apply (NoDup_gotos_app V1); rewrite ?Hlog;
                      [apply NoDup_singleton | done | done
                      | intros u Hu; apply (Hg u Hu)]|].
              rewrite gotos_app, Hlog. split.
              ** intros u Hu. apply elem_of_app in Hu as [Hu|Hu].
                 --- destruct (Hg u Hu) as [Hn Hi]. split; [|done].
                     intros Hv'. apply Hn, HV1, Hv'.
                 --- split; [by apply Hout|]. by apply HV, Hin1.
              ** intros u Hu _. apply elem_of_app. by right.
           ++ destruct Hl as (new & Hf & Hnd & Hg & _).
              unfold walk_ends. exists (new ++ new0).
              split; [by rewrite Hf, Ht2, Ht1, app_assoc|].
              split; [apply (NoDup_gotos_app V1); rewrite ?Hlog;
                      [apply NoDup_singleton | done | done | done]|].
              rewrite gotos_app, Hlog. split.
              ** intros u Hu. apply elem_of_app in Hu as [Hu|Hu].
                 --- intros Hv'. apply (Hg u Hu), HV1, Hv'.
                 --- by apply Hout.
              ** intros _ u Hu _. apply elem_of_app. by right.
        -- destruct Hst as [_ (Ht2 & _)]. cbn [app] in Ht2.
           unfold walk_ends. exists new0.
           split; [by rewrite Ht2, Ht1|]. rewrite Hlog.
           split; [apply NoDup_singleton|]. split; [done|]. by intros _ u Hu _.
      * (* the fetch gave null *)
        unfold ret, walk_ends. split; [done|].
        exists new0. split; [done|]. rewrite Hlog.
        split; [apply NoDup_singleton|]. split; [|by intros u Hu _].
        intros u Hu. split; [by apply Hout | by apply Hin1].
    + (* puppeteer rejected a call *)
      destruct Hf as [(c & m & t & -> & _) (evs & (Ht & _) & Hgf)].
      cbn [trace logged] in Ht.
      unfold walk_ends. exists (evs ++ [ConsoleLog (Scraping url)]).
      split; [by rewrite Ht, <- app_assoc|]. rewrite Hlog.
      split; [destruct Hgf as [-> | ->]; [constructor|apply NoDup_singleton]|].
      split; [destruct Hgf as [-> | ->]; [intros u Hu; inversion Hu|done]|].
      intros Hne. by destruct (Hne c m).
Qed.
End Ends.

(** C2.  On a finite page graph [U], cycles or not, and whatever the
    surroundings reject, a walk from a seed with a fresh visited set ends,
    by returning or by throwing, and ends the same way for every fuel above
    the number of URLs of [U]; the URLs it navigated to are pairwise
    distinct: each is fetched at most once, the seed once (unless puppeteer
    rejected a call, which can end the walk before the first
    navigation). *)
Theorem walk_terminates_fetching_once w U site b s :
  closed_under w U -> site_url site ∈ U ->
  exists r,
    (forall fuel, (size U < fuel)%nat -> scrapeSite w fuel site b ∅ s = r)
    /\ match r with
       | Returned _ s' =>
           exists new, trace s' = new ++ trace s /\ NoDup (gotos new)
                       /\ site_url site ∈ gotos new
       | Thrown e s' =>
           exists new, trace s' = new ++ trace s /\ NoDup (gotos new)
                       /\ ((forall c m, e <> PuppeteerError c m) ->
                           site_url site ∈ gotos new)
       | OutOfFuel => False
       end.
Proof.
  intros HU Hin. exists (scrapeSite w (S (size U)) site b ∅ s).
  assert (size (U ∖ ∅) < S (size U))%nat as Hsz.
  { pose proof (size_unvisited_fresh U). lia. }
  pose proof (scrapeSite_ends w U HU (S (size U)) site b ∅ s Hin Hsz) as Hp.
  split.
  - intros fuel Hfuel. apply scrapeSite_fuel_le; [lia|].
    intros Hf. by rewrite Hf in Hp.
  - destruct (scrapeSite w (S (size U)) site b ∅ s) as [V' s'|e s'|]; [| |done].
    + destruct Hp as (_ & new & Ht & Hnd & _ & Hseed).
      exists new. split; [done|]. split; [done|].
      apply Hseed; [left|apply not_elem_of_empty].
    + destruct Hp as (new & Ht & Hnd & _ & Hseed).
      exists new. split; [done|]. split; [done|].
      intros Hne. apply (Hseed Hne); [left|apply not_elem_of_empty].
Qed.

(** X9.  When puppeteer rejects no call, no rendering context leaks across
    a walk, whether it returns or throws on a rejected write: the pages
    opened during the walk are the pages closed during it, in the same
    order. *)
Lemma walk_closes_every_page w U fuel site b V s :
  accepts_calls w ->
  closed_under w U -> site_url site ∈ U -> (size (U ∖ V) < fuel)%nat ->
  match scrapeSite w fuel site b V s with
  | Returned _ s' | Thrown _ s' =>
      exists new, trace s' = new ++ trace s
                  /\ pages_opened new = pages_closed new
  | OutOfFuel => False
  end.
Proof.
  intros Hcalm HU Hin Hsz.
  pose proof (scrapeSite_post w U HU fuel site b V s Hin Hsz) as Hp.
  destruct (scrapeSite w fuel site b V s) as [V' s'|e s'|]; [| |done].
  - destruct Hp as (_ & new & (Ht & _ & _ & _ & Hpages) & _). by exists new.
  - destruct Hp as (_ & new & (Ht & _ & _ & _ & Hpages) & _). by exists new.
Qed.

Lemma add_site_run w fuel c url s :
  add_site w fuel (Some (c :: url)) s =
  match hostname_of w (c :: url) with
  | None => Thrown (InvalidURL (c :: url)) s
  | Some h =>
      let catalogId := catalogId_of h in
      match refreshScraping w fuel
              {| db := db s;
                 sitesToScrape := sitesToScrape s
                   ++ [{| site_url := c :: url; site_id := catalogId |}];
                 fresh := fresh s; open_pages := open_pages s;
                 open_browsers := open_browsers s;
                 trace := ConsoleLog (AddedSite (c :: url) catalogId) :: trace s |}
      with
      | Returned _ s' =>
          Returned tt (logged (Respond 200 (SuccessBody catalogId)) s')
      | Thrown e s' => Thrown e s'
      | OutOfFuel => OutOfFuel
      end
  end.
Proof.
  unfold add_site, new_URL_hostname, bind.
  destruct (hostname_of w (c :: url)); [|reflexivity].
  unfold ret, push_site, emit, logged.
  cbn [db sitesToScrape fresh open_pages open_browsers trace].
  destruct (refreshScraping _ _ _); reflexivity.
Qed.


(** ** The store *)

Lemma same_key_true id cat d :
  same_key id cat d = true <-> key d = (id, cat).
Proof.
  unfold same_key, key. rewrite andb_true_iff, !bool_decide_eq_true.
  split; [intros [-> ->]; reflexivity | intros [= -> ->]; done].
Qed.

Lemma upsert_keys id cat doc docs k :
  key doc = (id, cat) ->
  k ∈ List.map key (upsert id cat doc docs) ->
  k = (id, cat) \/ k ∈ List.map key docs.
Proof.
  intros Hk. induction docs as [|d docs IH]; cbn [upsert List.map].
  - intros Hin. apply list_elem_of_singleton in Hin as ->. by left.
  - destruct (same_key id cat d) eqn:Hd; cbn [List.map]; intros Hin.
    + apply elem_of_cons in Hin as [->|Hin]; [by left|].
      right. by right.
    + apply elem_of_cons in Hin as [->|Hin]; [right; by left|].
      destruct (IH Hin) as [->|Hin']; [by left|]. right. by right.
Qed.

(** An upsert keeps the keys of the collection pairwise distinct. *)
Lemma upsert_NoDup id cat doc docs :
  key doc = (id, cat) ->
  NoDup (List.map key docs) -> NoDup (List.map key (upsert id cat doc docs)).
Proof.
  intros Hk. induction docs as [|d docs IH]; cbn [upsert List.map]; intros Hnd.
  - apply NoDup_singleton.
  - apply NoDup_cons in Hnd as [Hd Hnd].
    destruct (same_key id cat d) eqn:Hsame; cbn [List.map].
    + apply same_key_true in Hsame. rewrite Hk, <- Hsame.
      by apply NoDup_cons.
    + apply NoDup_cons. split; [|by apply IH].
      intros Hin. apply (upsert_keys _ _ _ _ _ Hk) in Hin as [Heq|Hin]; [|done].
      apply same_key_true in Heq. congruence.
Qed.

(** After an upsert the key has one document, the one written. *)
Lemma upsert_filter id cat doc docs :
  key doc = (id, cat) -> NoDup (List.map key docs) ->
  List.filter (same_key id cat) (upsert id cat doc docs) = [doc].
Proof.
  intros Hk. assert (same_key id cat doc = true) as Hdoc
    by by apply same_key_true.
  induction docs as [|d docs IH]; cbn [upsert List.map]; intros Hnd.
  - cbn [List.filter]. by rewrite Hdoc.
  - apply NoDup_cons in Hnd as [Hd Hnd].
    destruct (same_key id cat d) eqn:Hsame; cbn [List.filter].
    + rewrite Hdoc. f_equal. apply same_key_true in Hsame.
      clear IH Hnd. induction docs as [|d' docs IH]; [reflexivity|].
      cbn [List.filter List.map] in *.
      destruct (same_key id cat d') eqn:Hd'.
      * apply same_key_true in Hd'. destruct Hd.
        apply elem_of_cons. left. congruence.
      * apply IH. intros Hin. apply Hd. apply elem_of_cons. by right.
    + rewrite Hsame. by apply IH.
Qed.

Lemma written_NoDup docs : written docs -> NoDup (List.map key docs).
Proof.
  induction 1 as [|docs cat data url _ IH]; [constructor|].
  by apply upsert_NoDup.
Qed.

Lemma upsert_length_same id cat doc docs :
  key doc = (id, cat) ->
  length (upsert id cat doc (upsert id cat doc docs))
  = length (upsert id cat doc docs).
Proof.
  intros Hk. induction docs as [|d docs IH]; cbn [upsert].
  - apply same_key_true in Hk. by rewrite Hk.
  - destruct (same_key id cat d) eqn:Hd; cbn [upsert].
    + apply same_key_true in Hk. by rewrite Hk.
    + rewrite Hd. cbn [length]. by rewrite IH.
Qed.

(** In a collection that upserts built, every document is stored under
    the id of its own link. *)
Lemma upsert_elem id cat doc docs e :
  e ∈ upsert id cat doc docs -> e = doc \/ e ∈ docs.
Proof.
  induction docs as [|d docs IH]; cbn [upsert].
  - intros He. apply list_elem_of_singleton in He. by left.
  - destruct (same_key id cat d); intros He.
    + apply elem_of_cons in He as [->|He]; [by left|]. right. by right.
    + apply elem_of_cons in He as [->|He]; [right; by left|].
      destruct (IH He) as [->|Hin]; [by left|]. right. by right.
Qed.

Lemma written_ids docs e :
  written docs -> e ∈ docs -> e_id e = entryId (e_videoUrl e).
Proof.
  induction 1 as [|docs cat data url _ IH]; intros He; [inversion He|].
  apply upsert_elem in He as [->|He]; [reflexivity | by apply IH].
Qed.

(** X15.  So the stream resolved for the id of a stored link is that link,
    in whichever catalog it was found, as long as the stored links are
    well-formed strings. *)
Lemma stream_of_written docs e :
  written docs -> e ∈ docs ->
  (forall d, d ∈ docs -> isWellFormed (e_videoUrl d) = true) ->
  streamHandler (e_id e) docs = [{| stream_url := e_videoUrl e |}].
Proof.
  intros Hw He Hwf. unfold streamHandler.
  destruct (findOne (e_id e) docs) as [d|] eqn:Hfind; unfold findOne in Hfind.
  - apply List.find_some in Hfind as [Hin Hid].
    apply bool_decide_eq_true in Hid. apply list_elem_of_In in Hin.
    rewrite (written_ids docs d Hw Hin), (written_ids docs e Hw He) in Hid.
    rewrite <- (entryId_decode (e_videoUrl d)), Hid, entryId_decode;
      [reflexivity | by apply Hwf..].
  - apply list_elem_of_In in He.
    pose proof (List.find_none _ _ Hfind e He) as Hn. cbn in Hn.
    by apply bool_decide_eq_false in Hn.
Qed.

(** C3.  On a collection that upserts built, writing the fields [A] and
    then the fields [B] for one catalog and one media URL returns and
    leaves exactly one document under the key: its name, description and
    poster are the title, description and image of [B], its link is the
    media URL, its ids are those of the key; all keys of the collection
    stay pairwise distinct. *)
Theorem upsert_last_write_wins w catalogId videoUrl A B s :
  written (db s) ->
  store_rejects w (video_entry catalogId A videoUrl) = false ->
  store_rejects w (video_entry catalogId B videoUrl) = false ->
  exists s' e,
    (store_video w catalogId A videoUrl ;;
     store_video w catalogId B videoUrl) s = Returned tt s'
    /\ List.filter (same_key (entryId videoUrl) catalogId) (db s') = [e]
    /\ e_catalogId e = catalogId /\ e_id e = entryId videoUrl
    /\ e_name e = title B /\ e_description e = description B
    /\ e_poster e = image B /\ e_videoUrl e = videoUrl
    /\ NoDup (List.map key (db s'))
    /\ written (db s').
Proof.
  intros Hw HA HB. rewrite bind_run, store_video_run, HA. cbv beta iota.
  rewrite store_video_run, HB.
  eexists _, (video_entry catalogId B videoUrl). split; [reflexivity|].
  cbn [db stored video_entry e_id e_catalogId e_name e_description e_poster
       e_videoUrl].
  pose proof (written_upsert _ catalogId A videoUrl Hw) as Hw1.
  pose proof (written_upsert _ catalogId B videoUrl Hw1) as Hw2.
  split; [apply upsert_filter; [reflexivity | by apply written_NoDup]|].
  do 6 (split; [reflexivity|]).
  split; [by apply written_NoDup | done].
Qed.

(** ** The handlers *)

(** What the two handlers answer with, on the documents they read: by
    the first document with the id, whatever its catalog. *)
Lemma handlers_by_first_document id docs :
  match findOne id docs with
  | Some e =>
      e ∈ docs /\ e_id e = id
      /\ streamHandler id docs = [{| stream_url := e_videoUrl e |}]
      /\ metaHandler id docs
         = Some {| meta_id := id; meta_type := "movie";
                   meta_name := e_name e; meta_poster := e_poster e;
                   meta_description_of := e_description e |}
  | None =>
      (forall e, e ∈ docs -> e_id e <> id)
      /\ streamHandler id docs = [] /\ metaHandler id docs = None
  end.
Proof.
  unfold streamHandler, metaHandler.
  destruct (findOne id docs) as [e|] eqn:Hfind; unfold findOne in Hfind.
  - apply List.find_some in Hfind as [Hin Hid].
    apply bool_decide_eq_true in Hid. rewrite Hid.
    repeat split; try done. by apply list_elem_of_In.
  - repeat split. intros e Hin Hid.
    apply list_elem_of_In in Hin.
    pose proof (List.find_none _ _ Hfind e Hin) as Hn. cbn in Hn.
    apply bool_decide_eq_false in Hn. done.
Qed.

(** C10, as amended.  When the read of the collection succeeds, the two
    handlers return, leave the state alone and answer by the first document
    with the id, whatever its catalog: one stream with its [videoUrl] and
    its display data; without such a document, no stream and the empty
    object. *)
Theorem handlers_answer_by_entry_id w id s :
  read_rejects w id = None ->
  match findOne id (db s) with
  | Some e =>
      e ∈ db s /\ e_id e = id
      /\ defineStreamHandler w id s
         = Returned [{| stream_url := e_videoUrl e |}] s
      /\ defineMetaHandler w id s
         = Returned (Some {| meta_id := id; meta_type := "movie";
                             meta_name := e_name e; meta_poster := e_poster e;
                             meta_description_of := e_description e |}) s
  | None =>
      (forall e, e ∈ db s -> e_id e <> id)
      /\ defineStreamHandler w id s = Returned [] s
      /\ defineMetaHandler w id s = Returned None s
  end.
Proof.
  intros Hread. pose proof (handlers_by_first_document id (db s)) as H.
  unfold defineStreamHandler, defineMetaHandler.
  rewrite !bind_run. unfold collection_read, ret. rewrite Hread.
  destruct (findOne id (db s)) as [e|].
  - destruct H as (Hin & Hid & -> & ->). done.
  - destruct H as (Hno & -> & ->). done.
Qed.

(** ** The page fetch *)

(** C6, as amended.  When puppeteer accepts opening the page, setting
    its user agent and closing it, [fetchPageData] returns for every URL
    and leaves the store alone.  On a rendered page it returns the
    extraction; on a navigation or evaluation error it returns [null],
    after writing the URL and the cause to the error console and closing
    the page; [scrapeSite] then returns without a write. *)
Theorem fetchPageData_contains_failures w url browser s :
  accepts_calls w ->
  exists s',
    fetchPageData w url browser s
    = Returned (match web w url with
                | Rendered doc => Some (extract doc)
                | _ => None
                end) s'
    /\ db s' = db s
    /\ match web w url with
       | Rendered _ => True
       | NavigationFails m | EvaluationFails m =>
           (exists rest,
              trace s' = PageClose (fresh s) :: ConsoleError url m :: rest)
           /\ forall fuel catalogId visited s0,
                url ∉ visited ->
                exists s1,
                  scrapeSite w (S fuel)
                    {| site_url := url; site_id := catalogId |}
                    browser visited s0
                  = Returned ({[url]} ∪ visited) s1
                  /\ db s1 = db s0
       end.
Proof.
  intros Hcalm.
  rewrite (fetchPageData_run w). eexists. split; [reflexivity|].
  split; [reflexivity|]. unfold after_fetch, fetch_events. cbn [trace].
  destruct (web w url) as [doc|m|m] eqn:Hweb; [done| |].
  - split; [by eexists|]. intros fuel cat V s0 Hv. cbn [scrapeSite site_url].
    destruct (decide (url ∈ V)); [done|].
    rewrite bind_run, emit_run, bind_run, (fetchPageData_run w).
    unfold fetch_result. rewrite Hweb. by eexists.
  - split; [by eexists|]. intros fuel cat V s0 Hv. cbn [scrapeSite site_url].
    destruct (decide (url ∈ V)); [done|].
    rewrite bind_run, emit_run, bind_run, (fetchPageData_run w).
    unfold fetch_result. rewrite Hweb. by eexists.
Qed.

(** When puppeteer accepts every call, [fetchPageData] opens one
    rendering context on each of its exit paths (page rendered, navigation
    failed, evaluation failed), closes that context exactly once, as its
    last action, and leaves it out of the open ones. *)
Lemma fetchPageData_releases_page w url browser s :
  accepts_calls w ->
  exists data s' new,
    fetchPageData w url browser s = Returned data s'
    /\ trace s' = PageClose (fresh s) :: new ++ trace s
    /\ pages_opened (PageClose (fresh s) :: new) = [fresh s]
    /\ pages_closed (PageClose (fresh s) :: new) = [fresh s]
    /\ fresh s ∉ open_pages s'.
Proof.
  intros Hcalm.
  rewrite (fetchPageData_run w). unfold after_fetch, fetch_events.
  cbn [trace open_pages].
  assert (fresh s ∉ List.filter (fun p => negb (p =? fresh s)%nat)
                                (fresh s :: open_pages s)) as Hout.
  { intros Hin. apply list_elem_of_In, List.filter_In in Hin as [_ Hin].
    by rewrite Nat.eqb_refl in Hin. }
  destruct (web w url) as [doc|m|m]; eexists _, _, _;
    (split; [reflexivity|]); (split; [reflexivity|]); done.
Qed.

(** ** The sample worlds *)

Lemma closedb_sound w us :
  closedb w us = true -> closed_under w (list_to_set us).
Proof.
  intros Hc u doc l Hu Hweb Hl. apply elem_of_list_to_set in Hu.
  unfold closedb in Hc. rewrite forallb_forall in Hc.
  specialize (Hc u (proj1 (list_elem_of_In _ _) Hu)). rewrite Hweb in Hc.
  rewrite forallb_forall in Hc. specialize (Hc l Hl).
  apply bool_decide_eq_true in Hc. by apply elem_of_list_to_set.
Qed.

Lemma seeds_in_sound (us : list (list N)) (sites : list Site) :
  forallb (fun y => bool_decide (site_url y ∈ us)) sites = true ->
  forall y, y ∈ sites -> site_url y ∈ (list_to_set us : gset (list N)).
Proof.
  intros Hc y Hy. rewrite forallb_forall in Hc.
  specialize (Hc y (proj1 (list_elem_of_In _ _) Hy)).
  apply bool_decide_eq_true in Hc. by apply elem_of_list_to_set.
Qed.

(** Two well-formed links and their ids. *)
Lemma entryId_injective_witness :
  isWellFormed (js "https://example.com/movie.mp4") = true
  /\ isWellFormed (js "https://example.com/movie.mov") = true
  /\ (js "https://example.com/movie.mp4" = js "https://example.com/movie.mov"
      <-> entryId (js "https://example.com/movie.mp4")
          = entryId (js "https://example.com/movie.mov")).
Proof.
  split; [reflexivity|]. split; [reflexivity|].
  apply entryId_injective; reflexivity.
Defined.

(** The walk of two pages that link to each other. *)
Lemma walk_cycle_witness :
  exists r,
    (forall fuel,
       (size (list_to_set [js "https://a.example/"; js "https://a.example/b"]
              : gset (list N)) < fuel)%nat ->
       scrapeSite Sample.cycle fuel
         (Sample.site "https://a.example/" "catalog-a-example") 0 ∅ initial = r)
    /\ match r with
       | Returned _ s' =>
           exists new, trace s' = new ++ trace initial /\ NoDup (gotos new)
                       /\ js "https://a.example/" ∈ gotos new
       | Thrown e s' =>
           exists new, trace s' = new ++ trace initial /\ NoDup (gotos new)
                       /\ ((forall c m, e <> PuppeteerError c m) ->
                           js "https://a.example/" ∈ gotos new)
       | OutOfFuel => False
       end.
Proof.
  apply (walk_terminates_fetching_once Sample.cycle
           (list_to_set [js "https://a.example/"; js "https://a.example/b"])).
  - apply closedb_sound. vm_compute. reflexivity.
  - apply elem_of_list_to_set. left.
Defined.

(** The walk of the two pages that link to each other: each is navigated
    to once, the seed first. *)
Example walk_cycle_gotos :
  (fun r => gotos (trace r)) <$>
    final (scrapeSite Sample.cycle 3
             (Sample.site "https://a.example/" "catalog-a-example") 0 ∅ initial)
  = Some [js "https://a.example/b"; js "https://a.example/"].
Proof. vm_compute. reflexivity. Qed.

(** Two writes for one media link of one catalog into the empty
    collection. *)
Lemma upsert_last_write_wins_witness :
  exists s' e,
    (store_video Sample.example_com (js "catalog-example-com")
       (extract {| location_origin := js "https://example.com";
                   document_title := js "First"; meta_description := None;
                   meta_og_image := None; elements := [] |})
       (js "https://example.com/movie.mp4") ;;
     store_video Sample.example_com (js "catalog-example-com")
       (extract {| location_origin := js "https://example.com";
                   document_title := js "Second"; meta_description := None;
                   meta_og_image := None; elements := [] |})
       (js "https://example.com/movie.mp4")) initial = Returned tt s'
    /\ List.filter (same_key (entryId (js "https://example.com/movie.mp4"))
                             (js "catalog-example-com")) (db s') = [e]
    /\ e_catalogId e = js "catalog-example-com"
    /\ e_id e = entryId (js "https://example.com/movie.mp4")
    /\ e_name e = js "Second" /\ e_description e = js "No Data"
    /\ e_poster e = js "No Data"
    /\ e_videoUrl e = js "https://example.com/movie.mp4"
    /\ NoDup (List.map key (db s'))
    /\ written (db s').
Proof.
  apply (upsert_last_write_wins Sample.example_com (js "catalog-example-com")
           (js "https://example.com/movie.mp4"));
    [apply written_empty | reflexivity | reflexivity].
Defined.

(** The store after a refresh of the three sites with the second one
    down: the entries of the first and of the third. *)
Example refresh_second_site_down :
  (fun s => List.map e_catalogId (db s)) <$>
    final (refreshScraping Sample.second_site_down 2
             (Sample.with_sites Sample.three_sites))
  = Some [js "catalog-one-example"; js "catalog-three-example"].
Proof. vm_compute. reflexivity. Qed.


(** What the link filter does give: every link the walk follows from a
    page starts with the characters of the page's origin. *)
Lemma subLinks_start_with_origin doc l :
  In l (subLinks (extract doc)) -> startsWith (location_origin doc) l = true.
Proof. cbn [extract subLinks]. intros Hl. by apply List.filter_In in Hl as [_ Hl]. Qed.

(** C5 fails on the code.  On a page of origin [https://example.com] with a
    link to [https://example.com.evil.com/], the link passes
    [href.startsWith(location.origin)] and the walk navigates to it, though
    its origin is another one. *)
Lemma lookalike_host_is_crawled :
  URL.origin (js "https://example.com/") = Some (js "https://example.com")
  /\ URL.origin (js "https://example.com.evil.com/")
     = Some (js "https://example.com.evil.com")
  /\ (subLinks <$> fetch_result Sample.lookalike (js "https://example.com/"))
     = Some [js "https://example.com.evil.com/"]
  /\ (fun s => gotos (trace s)) <$>
       final (scrapeSite Sample.lookalike 3
                (Sample.site "https://example.com/" "catalog-example-com")
                0 ∅ initial)
     = Some [js "https://example.com.evil.com/"; js "https://example.com/"].
Proof. vm_compute. repeat split. Qed.

(** C6, as stated, fails: a timeout at one URL and a script error at
    another give the same returned value, [null], which carries neither the
    URL nor the cause; and when the [close] in the handler is rejected, the
    timeout ends in an error raised out of [fetchPageData]. *)
Lemma fetch_failure_is_bare_null_or_thrown :
  web Sample.failing (js "https://slow.example/")
  = NavigationFails (js "Navigation timeout of 60000 ms exceeded")
  /\ web Sample.failing (js "https://broken.example/")
     = EvaluationFails (js "Evaluation failed")
  /\ returned (fetchPageData Sample.failing (js "https://slow.example/") 0 initial)
     = Some None
  /\ returned (fetchPageData Sample.failing (js "https://broken.example/") 0 initial)
     = Some None
  /\ match fetchPageData Sample.close_rejected (js "https://slow.example/") 0
             initial with
     | Thrown e _ => e = PuppeteerError (call_page_close 0) (js "Protocol error")
     | _ => False
     end.
Proof. vm_compute. repeat split. Qed.

(** The fetch of a URL that times out, with a browser that accepts every
    call. *)
Lemma fetchPageData_contains_failures_witness :
  exists s',
    fetchPageData Sample.failing (js "https://slow.example/") 0 initial
    = Returned (match web Sample.failing (js "https://slow.example/") with
                | Rendered doc => Some (extract doc)
                | _ => None
                end) s'
    /\ db s' = db initial
    /\ match web Sample.failing (js "https://slow.example/") with
       | Rendered _ => True
       | NavigationFails m | EvaluationFails m =>
           (exists rest,
              trace s' = PageClose (fresh initial)
                           :: ConsoleError (js "https://slow.example/") m :: rest)
           /\ forall fuel catalogId visited s0,
                js "https://slow.example/" ∉ visited ->
                exists s1,
                  scrapeSite Sample.failing (S fuel)
                    {| site_url := js "https://slow.example/";
                       site_id := catalogId |}
                    0 visited s0
                  = Returned ({[js "https://slow.example/"]} ∪ visited) s1
                  /\ db s1 = db s0
       end.
Proof.
  apply (fetchPageData_contains_failures Sample.failing
           (js "https://slow.example/") 0 initial).
  intros t c. reflexivity.
Defined.

(** C7 fails on the code.  [page.setUserAgent] is awaited before the
    [try]: when it is rejected, [fetchPageData] throws with the page it
    opened still open and no [close] called.  And the first [page.close] is
    awaited inside the [try]: when it is rejected on a rendered page, the
    handler calls [close] a second time and the extraction is lost. *)
Lemma fetchPageData_leaks_page :
  match fetchPageData Sample.setUserAgent_rejected (js "https://example.com")
          0 initial with
  | Thrown e s' =>
      e = PuppeteerError (call_setUserAgent 0) (js "Target closed")
      /\ pages_opened (trace s') = [0%nat]
      /\ pages_closed (trace s') = []
      /\ open_pages s' = [0%nat]
  | _ => False
  end
  /\ match fetchPageData Sample.first_close_rejected (js "https://example.com")
             0 initial with
     | Returned data s' =>
         data = None
         /\ pages_opened (trace s') = [0%nat]
         /\ pages_closed (trace s') = [0%nat; 0%nat]
     | _ => False
     end.
Proof. vm_compute. repeat split. Qed.

(** The two handlers on a collection of one entry, asked for its id. *)
Lemma handlers_answer_by_entry_id_witness :
  match
    findOne (entryId (js "https://example.com/movie.mp4"))
      (db (stored
             (video_entry (js "catalog-example-com")
                {| title := js "Home"; description := js "No Data";
                   image := js "No Data"; videos := []; subLinks := [] |}
                (js "https://example.com/movie.mp4")) initial))
  with
  | Some e =>
      e ∈ db (stored
                (video_entry (js "catalog-example-com")
                   {| title := js "Home"; description := js "No Data";
                      image := js "No Data"; videos := []; subLinks := [] |}
                   (js "https://example.com/movie.mp4")) initial)
      /\ e_id e = entryId (js "https://example.com/movie.mp4")
      /\ defineStreamHandler Sample.example_com
           (entryId (js "https://example.com/movie.mp4"))
           (stored
              (video_entry (js "catalog-example-com")
                 {| title := js "Home"; description := js "No Data";
                    image := js "No Data"; videos := []; subLinks := [] |}
                 (js "https://example.com/movie.mp4")) initial)
         = Returned [{| stream_url := e_videoUrl e |}]
             (stored
                (video_entry (js "catalog-example-com")
                   {| title := js "Home"; description := js "No Data";
                      image := js "No Data"; videos := []; subLinks := [] |}
                   (js "https://example.com/movie.mp4")) initial)
      /\ defineMetaHandler Sample.example_com
           (entryId (js "https://example.com/movie.mp4"))
           (stored
              (video_entry (js "catalog-example-com")
                 {| title := js "Home"; description := js "No Data";
                    image := js "No Data"; videos := []; subLinks := [] |}
                 (js "https://example.com/movie.mp4")) initial)
         = Returned
             (Some {| meta_id := entryId (js "https://example.com/movie.mp4");
                      meta_type := "movie";
                      meta_name := e_name e; meta_poster := e_poster e;
                      meta_description_of := e_description e |})
             (stored
                (video_entry (js "catalog-example-com")
                   {| title := js "Home"; description := js "No Data";
                      image := js "No Data"; videos := []; subLinks := [] |}
                   (js "https://example.com/movie.mp4")) initial)
  | None =>
      (forall e,
         e ∈ db (stored
                   (video_entry (js "catalog-example-com")
                      {| title := js "Home"; description := js "No Data";
                         image := js "No Data"; videos := []; subLinks := [] |}
                      (js "https://example.com/movie.mp4")) initial) ->
         e_id e <> entryId (js "https://example.com/movie.mp4"))
      /\ defineStreamHandler Sample.example_com
           (entryId (js "https://example.com/movie.mp4"))
           (stored
              (video_entry (js "catalog-example-com")
                 {| title := js "Home"; description := js "No Data";
                    image := js "No Data"; videos := []; subLinks := [] |}
                 (js "https://example.com/movie.mp4")) initial)
         = Returned []
             (stored
                (video_entry (js "catalog-example-com")
                   {| title := js "Home"; description := js "No Data";
                      image := js "No Data"; videos := []; subLinks := [] |}
                   (js "https://example.com/movie.mp4")) initial)
      /\ defineMetaHandler Sample.example_com
           (entryId (js "https://example.com/movie.mp4"))
           (stored
              (video_entry (js "catalog-example-com")
                 {| title := js "Home"; description := js "No Data";
                    image := js "No Data"; videos := []; subLinks := [] |}
                 (js "https://example.com/movie.mp4")) initial)
         = Returned None
             (stored
                (video_entry (js "catalog-example-com")
                   {| title := js "Home"; description := js "No Data";
                      image := js "No Data"; videos := []; subLinks := [] |}
                   (js "https://example.com/movie.mp4")) initial)
  end.
Proof.
  apply (handlers_answer_by_entry_id Sample.example_com). reflexivity.
Defined.

(** C10, as stated, fails: while [db] is still [undefined], the read of
    either handler throws, for an id without an entry as for any other. *)
Lemma handlers_throw_on_failed_read :
  findOne (js "aHR0cHM6Ly9leGFtcGxlLmNvbS9tb3ZpZS5tcDQ=") (db initial) = None
  /\ defineStreamHandler Sample.not_connected
       (js "aHR0cHM6Ly9leGFtcGxlLmNvbS9tb3ZpZS5tcDQ=") initial
     = Thrown (ReadError
                 (js "Cannot read properties of undefined (reading 'collection')"))
              initial
  /\ defineMetaHandler Sample.not_connected
       (js "aHR0cHM6Ly9leGFtcGxlLmNvbS9tb3ZpZS5tcDQ=") initial
     = Thrown (ReadError
                 (js "Cannot read properties of undefined (reading 'collection')"))
              initial.
Proof. vm_compute. repeat split. Qed.


(** The scenario of the registration of [https://example.com]: one entry,
    in catalog [catalog-example-com], whose id resolves to the media
    link. *)
Example register_example_com :
  (fun s => (List.map e_catalogId (db s),
             List.map e_videoUrl (db s),
             streamHandler (entryId (js "https://example.com/movie.mp4")) (db s)))
    <$> final (add_site Sample.example_com 4
                 (Some (js "https://example.com")) initial)
  = Some ([js "catalog-example-com"],
          [js "https://example.com/movie.mp4"],
          [{| stream_url := js "https://example.com/movie.mp4" |}]).
Proof. vm_compute. reflexivity. Qed.

(** A request without a URL is answered with status 400; nothing is added
    and no browser is launched. *)
Lemma add_site_missing_url w fuel s :
  add_site w fuel None s
  = Returned tt (logged (Respond 400 (ErrorBody "Missing URL")) s)
  /\ add_site w fuel (Some []) s
     = Returned tt (logged (Respond 400 (ErrorBody "Missing URL")) s).
Proof. split; reflexivity. Qed.

(** A URL that [new URL] rejects makes the handler throw before it
    touches the site list; it sends no answer. *)
Lemma add_site_invalid_url w fuel url s :
  url <> [] -> hostname_of w url = None ->
  add_site w fuel (Some url) s = Thrown (InvalidURL url) s.
Proof.
  intros Hne Hh. destruct url as [|c url]; [done|].
  by rewrite add_site_run, Hh.
Qed.

(** What [new URL] makes of the inputs of the samples. *)
Example URL_parse_samples :
  URL.parse (js "not a url") = URL.Invalid
  /\ URL.hostname (js "https://example.com") = Some (js "example.com")
  /\ URL.hostname (js "  HTTPS://Example.COM:443/a?b#c ") = Some (js "example.com")
  /\ URL.parse (js "mailto:a@b.com") = URL.Outside
  /\ URL.parse (js "https://a b/") = URL.Outside
  /\ URL.parse (js "http://[::1]:8080/") = URL.Outside
  /\ URL.parse (js "http://192.168.0.1/") = URL.Outside.
Proof. vm_compute. repeat split. Qed.

(** C9 fails on the code for a malformed URL: the handler throws out of
    [new URL(url)], with the state as it was (no site added, no refresh
    run) and no answer sent, where a request without a URL gets status
    400. *)
Lemma add_site_malformed_url_throws :
  add_site Sample.example_com 4 (Some (js "not a url")) initial
  = Thrown (InvalidURL (js "not a url")) initial
  /\ add_site Sample.example_com 4 None initial
     = Returned tt (logged (Respond 400 (ErrorBody "Missing URL")) initial).
Proof. vm_compute. repeat split. Qed.

(** * Further properties of the code *)

(** ** String tests as concatenations *)

Lemma startsWith_iff p s : startsWith p s = true <-> exists t, s = p ++ t.
Proof.
  revert s. induction p as [|a p IH]; intros s; cbn [startsWith].
  - split; [intros _; by exists s | done].
  - destruct s as [|b s].
    + split; [done | intros [t Ht]; discriminate].
    + rewrite andb_true_iff, N.eqb_eq, IH. split.
      * intros [-> [t ->]]. by exists t.
      * intros [t [= -> ->]]. split; [done | by exists t].
Qed.

Lemma endsWith_iff p s : endsWith p s = true <-> exists t, s = t ++ p.
Proof.
  unfold endsWith. rewrite startsWith_iff. split.
  - intros [t Ht]. exists (rev t).
    rewrite <- (rev_involutive s), Ht, rev_app_distr, rev_involutive. done.
  - intros [t ->]. exists (rev t). apply rev_app_distr.
Qed.

Lemma includes_iff p s :
  includes p s = true <-> exists a b, s = a ++ p ++ b.
Proof.
  induction s as [|c s IH]; cbn [includes]; rewrite orb_true_iff, startsWith_iff.
  - split.
    + intros [[t Ht]|?]; [|done]. by exists [], t.
    + intros (a & b & Hab). left. destruct a; [by exists b|discriminate].
  - rewrite IH. split.
    + intros [[t Ht]|(a & b & ->)]; [by exists [], t | by exists (c :: a), b].
    + intros (a & b & Hab). destruct a as [|c' a].
      * left. by exists b.
      * right. injection Hab as -> ->. by exists a, b.
Qed.

(** X1.  The media test, as concatenations: a link passes exactly when it
    ends in one of the four extensions, in any ASCII case, or holds one of
    the four host names, as written, anywhere. *)
Theorem isVideoLink_iff link :
  isVideoLink link = true <->
  (exists pre e ext,
      link = pre ++ e /\ In ext [".mp4"; ".m3u8"; ".avi"; ".mov"]%string
      /\ List.map fold_ascii e = js ext)
  \/ (exists pre host post,
        link = pre ++ js host ++ post
        /\ In host ["vidstream"; "dood"; "streamsb"; "streamtape"]%string).
Proof.
  unfold isVideoLink. rewrite orb_true_iff, !existsb_exists. split.
  - intros [(ext & Hext & He)|(h & Hh & Hi)].
    + left. apply endsWith_iff in He as [t Ht].
      apply map_eq_app in Ht as (pre & e & -> & _ & He). by exists pre, e, ext.
    + right. apply includes_iff in Hi as (a & b & ->). by exists a, h, b.
  - intros [(pre & e & ext & -> & Hext & He)|(pre & h & post & -> & Hh)].
    + left. exists ext. split; [done|]. apply endsWith_iff.
      exists (List.map fold_ascii pre). by rewrite List.map_app, He.
    + right. exists h. split; [done|]. apply includes_iff. by exists pre, post.
Qed.

(** ** The in-page extraction *)

Lemma extract_filled doc :
  title (extract doc) <> [] /\ description (extract doc) <> []
  /\ image (extract doc) <> [].
Proof.
  unfold extract, getContent. cbn [title description image].
  by destruct (document_title doc), (meta_description doc) as [[|]|],
    (meta_og_image doc) as [[|]|].
Qed.

(** X3.  The title, the description and the image that the page script
    returns are never empty: an empty title becomes [No Title], and a
    missing or empty [content] becomes [No Data]. *)
Theorem extract_never_empty doc :
  title (extract doc) <> [] /\ description (extract doc) <> []
  /\ image (extract doc) <> []
  /\ (document_title doc = [] -> title (extract doc) = js "No Title")
  /\ (meta_description doc = None \/ meta_description doc = Some [] ->
      description (extract doc) = js "No Data")
  /\ (meta_og_image doc = None \/ meta_og_image doc = Some [] ->
      image (extract doc) = js "No Data").
Proof.
  unfold extract, getContent. cbn [title description image].
  destruct (document_title doc), (meta_description doc) as [[|]|],
    (meta_og_image doc) as [[|]|]; repeat split; try done;
    intros [?|?]; done.
Qed.

(** ** The catalog id *)

Lemma replace_dots_idem h : replace_dots (replace_dots h) = replace_dots h.
Proof.
  unfold replace_dots. rewrite List.map_map. apply List.map_ext. intros c.
  destruct (N.eqb_spec c 0x2E); [reflexivity|].
  by destruct (N.eqb_spec c 0x2E).
Qed.

(** X20.  The catalog id has no dot and eight characters more than the
    host name; two host names get the same id exactly when they agree once
    their dots are dashes, so a host name and its dashed form share one. *)
Theorem catalogId_of_shape h1 h2 :
  ~ In 0x2E (catalogId_of h1)
  /\ length (catalogId_of h1) = (8 + length h1)%nat
  /\ (catalogId_of h1 = catalogId_of h2 <-> replace_dots h1 = replace_dots h2)
  /\ catalogId_of (replace_dots h1) = catalogId_of h1.
Proof.
  unfold catalogId_of. repeat split.
  - intros Hin. apply in_app_or in Hin as [Hin|Hin].
    + vm_compute in Hin. repeat (destruct Hin as [Hin|Hin]; [discriminate|]). done.
    + unfold replace_dots in Hin. apply List.in_map_iff in Hin as (c & Hc & _).
      destruct (N.eqb_spec c 0x2E); [discriminate|done].
  - rewrite length_app. unfold replace_dots. by rewrite length_map.
  - apply app_inv_head.
  - intros ->. done.
  - by rewrite replace_dots_idem.
Qed.

(** ** The entry id *)

Lemma from_bytes16 s :
  Forall (fun c => c < 0x10000) s -> Forall (fun b => b < 256) (Buffer.from s).
Proof.
  remember (length s) as n eqn:Hn. revert s Hn.
  induction n as [n IH] using lt_wf_ind. intros s Hn Hs.
  destruct s as [|c rest]; [constructor|].
  apply Forall_cons in Hs as [Hc Hrest].
  assert (Forall (fun b => b < 256) (Buffer.from rest)) as Hr
    by (apply (IH (length rest)); [simpl in Hn; lia | reflexivity | assumption]).
  assert (Forall (fun b => b < 256) Buffer.replacement) as Hrep
    by (repeat constructor; lia).
  assert (forall cp, cp < 0x110000 -> Forall (fun b => b < 256) (Buffer.utf8_bytes cp))
    as Hcp.
  { intros cp Hlt. unfold Buffer.utf8_bytes. BufferFacts.split_ltb;
      repeat constructor; BufferFacts.div_lia. }
  cbn [Buffer.from].
  destruct (is_high_surrogate c) eqn:Hh.
  - destruct rest as [|d rest']; [done|].
    destruct (is_low_surrogate d) eqn:Hd; [|by apply Forall_app].
    apply BufferFacts.is_high_surrogate_true in Hh.
    apply BufferFacts.is_low_surrogate_true in Hd.
    apply Forall_app. split.
    + apply Hcp. unfold Buffer.pair_code_point. lia.
    + apply Forall_cons in Hrest as [_ Hrest'].
      apply (IH (length rest')); [simpl in Hn; lia | reflexivity | assumption].
  - destruct (is_low_surrogate c); apply Forall_app; split; try done.
    apply Hcp. lia.
Qed.

Lemma digit_in_alphabet i : i < 64 -> In (Buffer.digit i) Buffer.alphabet.
Proof.
  intros Hi. unfold Buffer.digit. apply List.nth_In.
  change (length Buffer.alphabet) with 64%nat. lia.
Qed.

Lemma toString_base64_shape bs :
  Forall (fun b => b < 256) bs ->
  Forall (fun c => In c Buffer.alphabet \/ c = Buffer.pad) (Buffer.toString_base64 bs)
  /\ length (Buffer.toString_base64 bs) = (4 * ((length bs + 2) / 3))%nat.
Proof.
  remember (length bs) as n eqn:Hn. revert bs Hn.
  induction n as [n IH] using lt_wf_ind. intros bs Hn Hb.
  assert (forall i, i < 64 ->
            In (Buffer.digit i) Buffer.alphabet \/ Buffer.digit i = Buffer.pad)
    as Hd by (intros i Hi; left; by apply digit_in_alphabet).
  assert (In Buffer.pad Buffer.alphabet \/ Buffer.pad = Buffer.pad) as Hp
    by by right.
  destruct bs as [|a [|b [|c rest]]].
  - split; [constructor|]. by subst.
  - apply Forall_cons in Hb as [Ha _]. subst n. split; [|reflexivity].
    cbn [Buffer.toString_base64].
    apply Forall_cons; split; [apply Hd; BufferFacts.div_lia|].
    apply Forall_cons; split; [apply Hd; BufferFacts.div_lia|].
    apply Forall_cons; split; [exact Hp|].
    apply Forall_cons; split; [exact Hp|]. by apply Forall_nil.
  - apply Forall_cons in Hb as [Ha Hb]. apply Forall_cons in Hb as [Hb _].
    subst n. split; [|reflexivity]. cbn [Buffer.toString_base64].
    apply Forall_cons; split; [apply Hd; BufferFacts.div_lia|].
    apply Forall_cons; split; [apply Hd; BufferFacts.div_lia|].
    apply Forall_cons; split; [apply Hd; BufferFacts.div_lia|].
    apply Forall_cons; split; [exact Hp|]. by apply Forall_nil.
  - apply Forall_cons in Hb as [Ha Hb]. apply Forall_cons in Hb as [Hb Hc].
    apply Forall_cons in Hc as [Hc Hrest].
    destruct (IH (length rest) ltac:(subst n; simpl; lia) rest eq_refl Hrest)
      as [IH1 IH2].
    cbn [Buffer.toString_base64]. split.
    + apply Forall_app. split; [|done].
      apply Forall_cons; split; [apply Hd; BufferFacts.div_lia|].
      apply Forall_cons; split; [apply Hd; BufferFacts.div_lia|].
      apply Forall_cons; split; [apply Hd; BufferFacts.div_lia|].
      apply Forall_cons; split; [apply Hd; BufferFacts.div_lia|]. by apply Forall_nil.
    + rewrite length_app, IH2. subst n. cbn [length].
      replace (S (S (S (length rest))) + 2)%nat with (length rest + 2 + 1 * 3)%nat
        by lia.
      rewrite Nat.div_add by lia. lia.
Qed.

(** X5.  The entry id of a string of 16-bit code units is base64 text:
    characters of the alphabet or the padding, in groups of four; it is
    empty for the empty link only. *)
Theorem entryId_shape u :
  Forall (fun c => c < 0x10000) u ->
  Forall (fun c => In c Buffer.alphabet \/ c = Buffer.pad) (entryId u)
  /\ (length (entryId u) mod 4 = 0)%nat
  /\ (entryId u = [] <-> u = []).
Proof.
  intros Hu. unfold entryId.
  destruct (toString_base64_shape (Buffer.from u) (from_bytes16 u Hu)) as [Hal Hlen].
  split; [done|]. split.
  - rewrite Hlen, Nat.mul_comm. apply Nat.Div0.mod_mul.
  - split; [|intros ->; reflexivity]. intros He.
    apply (f_equal (@length N)) in He. rewrite Hlen in He. cbn [length] in He.
    assert (length (Buffer.from u) = 0)%nat as H0.
    { destruct (length (Buffer.from u)) as [|k]; [done|].
      assert (1 <= (S k + 2) / 3)%nat; [|lia].
      apply Nat.div_le_lower_bound; lia. }
    destruct u as [|c rest]; [done|]. exfalso. cbn [Buffer.from] in H0.
    unfold Buffer.utf8_bytes, Buffer.replacement in H0.
    destruct (is_high_surrogate c); [destruct rest as [|d rest'];
      [discriminate|destruct (is_low_surrogate d)]|destruct (is_low_surrogate c)];
      BufferFacts.split_ltb; discriminate.
Qed.

(** X4.  The link of a well-formed string is recovered from its entry
    id by decoding base64 and then UTF-8. *)
Theorem entryId_round_trip u :
  isWellFormed u = true ->
  Buffer.utf8_decode (Buffer.base64_decode (entryId u)) = u.
Proof. apply entryId_decode. Qed.

(** ** Relations that every step of a refresh respects *)

Section Invariant.
Context (w : World) (C : list N -> Prop) (P : PageData -> list N -> Prop).
Context (P_fetch : forall url data v,
            fetch_result w url = Some data -> In v (videos data) -> P data v).
Context (R : State -> State -> Prop).
Context (R_refl : forall s, R s s).
Context (R_trans : forall a b c, R a b -> R b c -> R a c).
Context (R_log : forall s e, R s (logged e s)).
Context (R_page : forall s next pages t, R s (paged s next pages t)).
Context (R_store : forall cat s data v,
            C cat -> P data v -> R s (stored (video_entry cat data v) s)).

Lemma store_videos_inv cat data vids s :
  C cat -> (forall v, In v vids -> P data v) ->
  match for_of vids tt (fun v _ => store_video w cat data v) s with
  | Returned _ s' | Thrown _ s' => R s s'
  | OutOfFuel => True
  end.
Proof.
  intros Hc. revert s. induction vids as [|v vids IH]; intros s Hp;
    [apply R_refl|].
  cbn [for_of]. rewrite bind_run, store_video_run.
  destruct (store_rejects w _); [apply R_refl|].
  specialize (IH (stored (video_entry cat data v) s)
                 (fun v' Hv' => Hp v' (or_intror Hv'))).
  pose proof (R_store cat s data v Hc (Hp v (or_introl eq_refl))) as Hs.
  destruct (for_of vids tt _ _); try done; eapply R_trans; eauto.
Qed.

Lemma crawl_links_inv fuel :
  (forall site b V s, C (site_id site) ->
     match scrapeSite w fuel site b V s with
     | Returned _ s' | Thrown _ s' => R s s'
     | OutOfFuel => True
     end) ->
  forall links cat b V s, C cat ->
    match for_of links V
            (fun l v => scrapeSite w fuel {| site_url := l; site_id := cat |} b v) s
    with
    | Returned _ s' | Thrown _ s' => R s s'
    | OutOfFuel => True
    end.
Proof.
  intros IH links. induction links as [|l links IHl]; intros cat b V s Hc;
    [apply R_refl|].
  cbn [for_of]. rewrite bind_run.
  specialize (IH {| site_url := l; site_id := cat |} b V s Hc).
  destruct (scrapeSite w fuel _ b V s) as [V1 s1|e s1|]; [|done|done].
  specialize (IHl cat b V1 s1 Hc).
  destruct (for_of links V1 _ s1); try done; eapply R_trans; eauto.
Qed.

Lemma scrapeSite_inv fuel :
  forall site b V s, C (site_id site) ->
    match scrapeSite w fuel site b V s with
    | Returned _ s' | Thrown _ s' => R s s'
    | OutOfFuel => True
    end.
Proof.
  induction fuel as [|fuel IH]; intros site b V s Hc; [done|].
  rewrite scrapeSite_S.
  destruct (decide (site_url site ∈ V)); [apply R_refl|].
  rewrite bind_run, emit_run, bind_run.
  pose proof (fetchPageData_paged w (site_url site) b
                (logged (ConsoleLog (Scraping (site_url site))) s)) as Hpg.
  pose proof (fetchPageData_ends w (site_url site) b
                (logged (ConsoleLog (Scraping (site_url site))) s)) as Hres.
  destruct (fetchPageData w (site_url site) b _) as [data s1|e s1|];
    [| |done].
  2: { destruct Hpg as (next & pages & t & ->).
       eapply R_trans; [apply R_log | apply R_page]. }
  assert (R s s1) as Hf.
  { destruct Hpg as (next & pages & t & ->).
    eapply R_trans; [apply R_log | apply R_page]. }
  destruct data as [data|]; [|exact Hf].
  destruct Hres as [_ (doc & Hweb & ->)].
  assert (fetch_result w (site_url site) = Some (extract doc)) as Hres
    by (unfold fetch_result; by rewrite Hweb).
  set (data := extract doc) in *. clearbody data.
  rewrite bind_run.
  pose proof (store_videos_inv (site_id site) data (videos data) s1 Hc
                (fun v Hv => P_fetch (site_url site) data v Hres Hv)) as Hst.
  destruct (for_of (videos data) tt _ s1) as [[] s2|e s2|];
    [|by eapply R_trans|done].
  pose proof (crawl_links_inv fuel IH (subLinks data) (site_id site) b
                ({[site_url site]} ∪ V) s2 Hc) as Hl.
  destruct (for_of (subLinks data) _ _ s2); try done;
    (eapply R_trans; [|exact Hl]); by eapply R_trans.
Qed.

Lemma walk_all_inv fuel b sites s :
  (forall x, x ∈ sites -> C (site_id x)) ->
  match walk_all w fuel b sites s with
  | Returned _ s' | Thrown _ s' => R s s'
  | OutOfFuel => True
  end.
Proof.
  revert s. induction sites as [|x sites IH]; intros s Hc; [apply R_refl|].
  unfold walk_all. cbn [for_of]. rewrite !bind_run.
  pose proof (scrapeSite_inv fuel x b ∅ s ltac:(apply Hc; left)) as Hx.
  destruct (scrapeSite w fuel x b ∅ s) as [V1 s1|e s1|]; [|done|done].
  unfold ret. specialize (IH s1 ltac:(intros; apply Hc; by right)).
  unfold walk_all in IH.
  destruct (for_of sites tt _ s1); try done; eapply R_trans; eauto.
Qed.

Context (R_launch : forall s, R s (launched s)).
Context (R_close : forall s b, R s (closed b s)).

Lemma refreshScraping_inv fuel s :
  (forall x, x ∈ sitesToScrape s -> C (site_id x)) ->
  match refreshScraping w fuel s with
  | Returned _ s' | Thrown _ s' => R s s'
  | OutOfFuel => True
  end.
Proof.
  intros Hc. rewrite refreshScraping_cases.
  destruct (puppeteer_rejects w _ call_launch); [apply R_log|].
  pose proof (walk_all_inv fuel (fresh s) (sitesToScrape s) (launched s) Hc) as Hw.
  destruct (walk_all w fuel (fresh s) (sitesToScrape s) (launched s))
    as [[] s1|e s1|]; [|eapply R_trans; [apply R_launch | exact Hw]|done].
  destruct (puppeteer_rejects w _ (call_browser_close (fresh s)));
    (eapply R_trans; [apply R_launch|]; eapply R_trans; [exact Hw|]);
    [apply R_log | apply R_close].
Qed.
End Invariant.

(** The walks of a refresh end. *)
Lemma walk_all_ends w U fuel b sites s :
  closed_under w U -> (forall x, x ∈ sites -> site_url x ∈ U) ->
  (size U < fuel)%nat -> walk_all w fuel b sites s <> OutOfFuel.
Proof.
  intros HU Hin Hsz. revert s. induction sites as [|x sites IH]; intros s; [done|].
  unfold walk_all. cbn [for_of]. rewrite !bind_run.
  assert (size (U ∖ ∅) < fuel)%nat as Hsz'
    by (pose proof (size_unvisited_fresh U); lia).
  pose proof (scrapeSite_ends w U HU fuel x b ∅ s ltac:(apply Hin; left) Hsz') as Hx.
  destruct (scrapeSite w fuel x b ∅ s) as [V1 s1|e s1|]; [|done|done].
  unfold ret. apply IH. intros y Hy. apply Hin. by right.
Qed.

Lemma refreshScraping_ends w U fuel s :
  closed_under w U -> (forall x, x ∈ sitesToScrape s -> site_url x ∈ U) ->
  (size U < fuel)%nat -> refreshScraping w fuel s <> OutOfFuel.
Proof.
  intros HU Hin Hsz. rewrite refreshScraping_cases.
  destruct (puppeteer_rejects w _ call_launch); [done|].
  pose proof (walk_all_ends w U fuel (fresh s) (sitesToScrape s) (launched s)
                HU Hin Hsz) as Hw.
  destruct (walk_all w fuel (fresh s) (sitesToScrape s) (launched s));
    [|done..].
  by destruct (puppeteer_rejects w _ (call_browser_close (fresh s))).
Qed.

(** ** What a write does to the documents *)

Lemma upsert_other_catalog id cat doc docs c :
  e_catalogId doc = cat -> c <> cat ->
  List.filter (fun d => bool_decide (e_catalogId d = c)) (upsert id cat doc docs)
  = List.filter (fun d => bool_decide (e_catalogId d = c)) docs.
Proof.
  intros Hdoc Hc. induction docs as [|d docs IH]; cbn [upsert List.filter].
  - rewrite bool_decide_eq_false_2; [done | congruence].
  - destruct (same_key id cat d) eqn:Hd; cbn [List.filter].
    + apply andb_true_iff in Hd as [_ Hd]. apply bool_decide_eq_true in Hd.
      rewrite !bool_decide_eq_false_2; [done | congruence..].
    + by rewrite IH.
Qed.

Lemma upsert_keeps_keys id cat doc docs k :
  key doc = (id, cat) ->
  k ∈ List.map key docs -> k ∈ List.map key (upsert id cat doc docs).
Proof.
  intros Hk. induction docs as [|d docs IH]; cbn [upsert List.map];
    [intros Hin; inversion Hin|].
  intros Hin. destruct (same_key id cat d) eqn:Hd; cbn [List.map].
  - apply same_key_true in Hd. rewrite Hk, <- Hd. done.
  - apply elem_of_cons in Hin as [->|Hin]; [left|right; by apply IH].
Qed.

Lemma upsert_has_key id cat doc docs :
  key doc = (id, cat) -> (id, cat) ∈ List.map key (upsert id cat doc docs).
Proof.
  intros Hk. induction docs as [|d docs IH]; cbn [upsert List.map].
  - rewrite Hk. left.
  - destruct (same_key id cat d); cbn [List.map]; [rewrite Hk; left | by right].
Qed.

Lemma upsert_has_doc id cat doc docs : doc ∈ upsert id cat doc docs.
Proof.
  induction docs as [|d docs IH]; cbn [upsert]; [left|].
  destruct (same_key id cat d); [left | by right].
Qed.

Lemma upsert_keeps_doc id cat doc docs e :
  e ∈ docs -> e ∈ upsert id cat doc docs \/ key e = (id, cat).
Proof.
  induction docs as [|d docs IH]; cbn [upsert]; [intros He; inversion He|].
  intros He. destruct (same_key id cat d) eqn:Hd.
  - apply elem_of_cons in He as [->|He]; [right|left; by right].
    by apply same_key_true in Hd.
  - apply elem_of_cons in He as [->|He]; [left; left|].
    destruct (IH He) as [Hin|Hk]; [left; by right | by right].
Qed.

Lemma upsert_length id cat doc docs :
  (length docs <= length (upsert id cat doc docs))%nat.
Proof.
  induction docs as [|d docs IH]; cbn [upsert length]; [lia|].
  destruct (same_key id cat d); cbn [length]; lia.
Qed.

(** ** Invariants of the store *)

(** X8.  A walk, however it ends, changes no other catalog: the documents
    of every other catalog id stay as they were, in their order, and every
    document that was not there before carries the id of the seed's catalog,
    down the whole recursion, and the entry id of its own link. *)
Theorem walk_touches_only_its_catalog w U site b s fuel :
  closed_under w U -> site_url site ∈ U -> (size U < fuel)%nat ->
  match scrapeSite w fuel site b ∅ s with
  | Returned _ s' | Thrown _ s' =>
      (forall c, c <> site_id site ->
         List.filter (fun d => bool_decide (e_catalogId d = c)) (db s')
         = List.filter (fun d => bool_decide (e_catalogId d = c)) (db s))
      /\ (forall e, e ∈ db s' ->
            e ∈ db s
            \/ (e_catalogId e = site_id site /\ e_id e = entryId (e_videoUrl e)))
  | OutOfFuel => False
  end.
Proof.
  intros HU Hin Hsz.
  assert (size (U ∖ ∅) < fuel)%nat as Hsz'
    by (pose proof (size_unvisited_fresh U); lia).
  pose proof (scrapeSite_ends w U HU fuel site b ∅ s Hin Hsz') as Hend.
  pose proof (scrapeSite_inv w (fun c => c = site_id site)
    (fun _ _ => True) (fun _ _ _ _ _ => I)
    (on_db (fun d d' =>
       (forall c, c <> site_id site ->
          List.filter (fun x => bool_decide (e_catalogId x = c)) d'
          = List.filter (fun x => bool_decide (e_catalogId x = c)) d)
       /\ (forall e, e ∈ d' ->
             e ∈ d \/ (e_catalogId e = site_id site
                       /\ e_id e = entryId (e_videoUrl e)))))) as Hinv.
  unfold on_db in Hinv.
  specialize (Hinv ltac:(intros; split; [done | by left])).
  specialize (Hinv ltac:(intros a b0 c [H1 H2] [H3 H4]; split;
    [intros c0 Hc0; by rewrite H3, H1
    |intros e He; destruct (H4 e He) as [He'|He']; [by apply H2 | by right]])).
  specialize (Hinv ltac:(intros; split; [done | by left])).
  specialize (Hinv ltac:(intros; split; [done | by left])).
  specialize (Hinv ltac:(intros cat s0 data v -> _; cbn [db stored]; split;
    [intros c Hc; by apply upsert_other_catalog
    |intros e He; apply upsert_elem in He as [->|He]; [by right | by left]])).
  specialize (Hinv fuel site b ∅ s eq_refl).
  by destruct (scrapeSite w fuel site b ∅ s).
Qed.

(** X10.  A refresh, however it ends, deletes nothing: every key of the
    store before is a key of the store after, and the store does not
    shrink. *)
Theorem refresh_never_deletes w U s fuel :
  closed_under w U -> (forall x, x ∈ sitesToScrape s -> site_url x ∈ U) ->
  (size U < fuel)%nat ->
  match refreshScraping w fuel s with
  | Returned _ s' | Thrown _ s' =>
      (forall k, k ∈ List.map key (db s) -> k ∈ List.map key (db s'))
      /\ (length (db s) <= length (db s'))%nat
  | OutOfFuel => False
  end.
Proof.
  intros HU Hin Hsz.
  pose proof (refreshScraping_ends w U fuel s HU Hin Hsz) as Hend.
  pose proof (refreshScraping_inv w (fun _ => True)
    (fun _ _ => True) (fun _ _ _ _ _ => I)
    (on_db (fun d d' =>
       (forall k, k ∈ List.map key d -> k ∈ List.map key d')
       /\ (length d <= length d')%nat))) as Hinv.
  unfold on_db in Hinv.
  specialize (Hinv ltac:(intros; split; [done | lia])).
  specialize (Hinv ltac:(intros a b0 c [H1 H2] [H3 H4]; split;
                           [intros k Hk; by apply H3, H1 | lia])).
  specialize (Hinv ltac:(intros; split; [done | cbn; lia])).
  specialize (Hinv ltac:(intros; split; [done | cbn; lia])).
  specialize (Hinv ltac:(intros cat s0 data v _ _; cbn [db stored]; split;
    [intros k Hk; by apply upsert_keeps_keys | apply upsert_length])).
  specialize (Hinv ltac:(intros; split; [done | cbn; lia])).
  specialize (Hinv ltac:(intros; split; [done | cbn; lia])).
  specialize (Hinv fuel s ltac:(done)).
  by destruct (refreshScraping w fuel s).
Qed.

(** X11.  A refresh, however it ends, keeps the compound keys of a store
    that upserts built pairwise distinct. *)
Theorem refresh_keeps_keys_unique w U s fuel :
  closed_under w U -> (forall x, x ∈ sitesToScrape s -> site_url x ∈ U) ->
  (size U < fuel)%nat -> written (db s) ->
  match refreshScraping w fuel s with
  | Returned _ s' | Thrown _ s' =>
      written (db s') /\ NoDup (List.map key (db s'))
  | OutOfFuel => False
  end.
Proof.
  intros HU Hin Hsz Hw.
  pose proof (refreshScraping_ends w U fuel s HU Hin Hsz) as Hend.
  pose proof (refreshScraping_inv w (fun _ => True)
    (fun _ _ => True) (fun _ _ _ _ _ => I)
    (on_db (fun d d' => written d -> written d'))) as Hinv.
  unfold on_db in Hinv.
  specialize (Hinv ltac:(done) ltac:(intros a b0 c H1 H2 H; by apply H2, H1)
                ltac:(done) ltac:(done)
                ltac:(intros cat s0 data v _ _ H; cbn [db stored video_entry e_id
                        e_catalogId]; by apply written_upsert)
                ltac:(done) ltac:(done) fuel s ltac:(done)).
  destruct (refreshScraping w fuel s) as [[] s'|e s'|]; [| |done];
    (split; [by apply Hinv | by apply written_NoDup, Hinv]).
Qed.


(** X12.  A refresh, however it ends, keeps every document well made:
    name, description and poster filled, a link that passed the media test,
    and the entry id of that link. *)
Theorem refresh_stores_well_made_entries w U s fuel :
  closed_under w U -> (forall x, x ∈ sitesToScrape s -> site_url x ∈ U) ->
  (size U < fuel)%nat -> (forall e, e ∈ db s -> well_made e) ->
  match refreshScraping w fuel s with
  | Returned _ s' | Thrown _ s' => forall e, e ∈ db s' -> well_made e
  | OutOfFuel => False
  end.
Proof.
  intros HU Hin Hsz Hwm.
  pose proof (refreshScraping_ends w U fuel s HU Hin Hsz) as Hend.
  pose proof (refreshScraping_inv w (fun _ => True)
    (fun data v => title data <> [] /\ description data <> []
                   /\ image data <> [] /\ isVideoLink v = true)) as Hinv.
  specialize (Hinv ltac:(intros url data v Hres Hv; unfold fetch_result in Hres;
    destruct (web w url) as [doc| |]; [|done|done]; injection Hres as <-;
    destruct (extract_filled doc) as (Ht & Hd & Hi);
    repeat split; try done;
    by apply List.filter_In in Hv as [_ Hv])).
  specialize (Hinv
    (on_db (fun d d' => (forall e, e ∈ d -> well_made e) ->
                        forall e, e ∈ d' -> well_made e))).
  unfold on_db in Hinv.
  specialize (Hinv ltac:(done) ltac:(intros a b0 c H1 H2 H; by apply H2, H1)
                ltac:(done) ltac:(done)).
  specialize (Hinv ltac:(intros cat s0 data v _ (Ht & Hd & Hi & Hv) Hall e He;
    cbn [db stored] in He; apply upsert_elem in He as [->|He];
    [by repeat split | by apply Hall])).
  specialize (Hinv ltac:(done) ltac:(done) fuel s ltac:(done)).
  destruct (refreshScraping w fuel s) as [[] s'|e s'|]; [| |done]; by apply Hinv.
Qed.

Section Cover.
Context (w : World) (U : gset (list N)) (HU : closed_under w U).
Context `{Hcalm : !accepts_calls w}.
Context (Haccept : forall d, store_rejects w d = false).
Context (Q : Entry -> Prop).
Context (HQ : forall cat data v, found w data v -> Q (video_entry cat data v)).

Lemma keys_kept_refl s : keys_kept Q s s.
Proof. by intros k. Qed.

Lemma keys_kept_trans a b c :
  keys_kept Q a b -> keys_kept Q b c -> keys_kept Q a c.
Proof. intros H1 H2 k Hk. by apply H2, H1. Qed.

Lemma keys_kept_store cat s data v :
  True -> found w data v -> keys_kept Q s (stored (video_entry cat data v) s).
Proof.
  intros _ Hf k (e & He & Hk & Hq). cbn [db stored video_entry e_id e_catalogId].
  destruct (upsert_keeps_doc (entryId v) cat (video_entry cat data v) (db s) e He)
    as [He'|He'].
  - by exists e.
  - exists (video_entry cat data v).
    split; [by apply upsert_has_doc|]. split; [by rewrite <- Hk, He'|].
    by apply HQ.
Qed.

Lemma found_fetch url data v :
  fetch_result w url = Some data -> In v (videos data) -> found w data v.
Proof.
  unfold fetch_result. destruct (web w url) as [doc| |] eqn:Hweb; [|done..].
  intros [= <-] Hv. by exists url, doc.
Qed.

Lemma keys_kept_walk fuel site b V s :
  match scrapeSite w fuel site b V s with
  | Returned _ s' | Thrown _ s' => keys_kept Q s s'
  | OutOfFuel => True
  end.
Proof.
  by apply (scrapeSite_inv w (fun _ => True) (found w) found_fetch
              (keys_kept Q) keys_kept_refl
              keys_kept_trans (fun s _ => keys_kept_refl s)
              (fun s _ _ _ => keys_kept_refl s) keys_kept_store).
Qed.

Lemma keys_kept_links fuel links cat b V s :
  match for_of links V
          (fun l v => scrapeSite w fuel {| site_url := l; site_id := cat |} b v) s
  with
  | Returned _ s' | Thrown _ s' => keys_kept Q s s'
  | OutOfFuel => True
  end.
Proof.
  apply (crawl_links_inv w (fun _ => True) (keys_kept Q) keys_kept_refl
           keys_kept_trans fuel); [|done].
  intros site b0 V0 s0 _. apply keys_kept_walk.
Qed.

Lemma store_videos_cover cat data vids s :
  (forall v, In v vids -> found w data v) ->
  exists s',
    for_of vids tt (fun v _ => store_video w cat data v) s = Returned tt s'
    /\ trace s' = trace s /\ keys_kept Q s s'
    /\ forall v, In v vids -> holds Q s' (entryId v, cat).
Proof.
  revert s. induction vids as [|v vids IH]; intros s Hf.
  - exists s. repeat split; [apply keys_kept_refl | intros v []].
  - cbn [for_of]. rewrite bind_run, store_video_run, Haccept.
    destruct (IH (stored (video_entry cat data v) s)
                 (fun v' Hv' => Hf v' (or_intror Hv')))
      as (s' & -> & Ht & Hk & Hv).
    exists s'. split; [done|]. split; [done|]. split.
    + eapply keys_kept_trans; [|done].
      apply keys_kept_store; [done|]. apply Hf. by left.
    + intros v' [<-|Hin]; [|by apply Hv].
      apply Hk. exists (video_entry cat data v).
      cbn [db stored video_entry e_id e_catalogId].
      split; [by apply upsert_has_doc|]. split; [done|].
      apply HQ, Hf. by left.
Qed.

Lemma crawl_links_cover fuel :
  (forall site b V s, site_url site ∈ U -> (size (U ∖ V) < fuel)%nat ->
     cover_post w Q (site_id site) V [site_url site] s
       (scrapeSite w fuel site b V s)) ->
  forall links cat b V s,
    (forall l, l ∈ links -> l ∈ U) -> (size (U ∖ V) < fuel)%nat ->
    cover_post w Q cat V links s
      (for_of links V
         (fun l v => scrapeSite w fuel {| site_url := l; site_id := cat |} b v) s).
Proof.
  intros IH links. induction links as [|l links IHl]; intros cat b V s Hin Hsz.
  - unfold for_of, ret, cover_post. split; [intros l Hl; inversion Hl|].
    exists []. split; [done|]. split; [done|].
    split; [intros u Hu; inversion Hu|]. split; done.
  - cbn [for_of]. rewrite bind_run.
    pose proof (IH {| site_url := l; site_id := cat |} b V s
                  ltac:(apply Hin; left) Hsz) as Hc1.
    pose proof (scrapeSite_post w U HU fuel {| site_url := l; site_id := cat |}
                  b V s ltac:(apply Hin; left) Hsz) as Hp1.
    cbn [site_url site_id] in Hc1, Hp1.
    destruct (scrapeSite w fuel _ b V s) as [V1 s1|e s1|]; [|done|done].
    destruct Hp1 as (HV1 & _).
    destruct Hc1 as (Hs1 & new1 & Ht1 & Hg1 & Hr1 & Hl1 & Hk1).
    pose proof (size_unvisited_mono U V V1 HV1) as Hle.
    pose proof (IHl cat b V1 s1 ltac:(intros; apply Hin; by right) ltac:(lia))
      as Hc2.
    pose proof (crawl_links_post w U fuel (scrapeSite_post w U HU fuel)
                  links cat b V1 s1 ltac:(intros; apply Hin; by right)
                  ltac:(lia)) as Hp2.
    pose proof (keys_kept_links fuel links cat b V1 s1) as Hkk.
    destruct (for_of links V1 _ s1) as [V2 s2|e s2|]; [|done|done].
    destruct Hp2 as (HV2 & _).
    destruct Hc2 as (Hs2 & new2 & Ht2 & Hg2 & Hr2 & Hl2 & Hk2).
    unfold cover_post. split.
    { intros l' Hl'. apply elem_of_cons in Hl' as [->|Hl'].
      - apply HV2, Hs1. left.
      - by apply Hs2. }
    exists (new2 ++ new1). split; [by rewrite Ht2, Ht1, app_assoc|].
    split; [|split; [|split]].
    + intros u Hu Hn. rewrite gotos_app. apply elem_of_app.
      destruct (decide (u ∈ V1)); [right; by apply Hg1 | left; by apply Hg2].
    + intros u Hu. rewrite gotos_app in Hu. apply elem_of_app in Hu as [Hu|Hu].
      * destruct (Hr2 u Hu) as (l' & Hl' & Hreach). exists l'. split; [by right|done].
      * destruct (Hr1 u Hu) as (l' & Hl' & Hreach).
        apply list_elem_of_singleton in Hl' as ->. exists l. split; [left|done].
    + intros x doc l' Hx Hn Hweb Hl'. destruct (decide (x ∈ V1)).
      * by apply HV2, (Hl1 x doc l').
      * by apply (Hl2 x doc l').
    + intros x doc v Hx Hn Hweb Hv. destruct (decide (x ∈ V1)).
      * by apply Hkk, (Hk1 x doc v).
      * by apply (Hk2 x doc v).
Qed.

Lemma scrapeSite_cover fuel :
  forall site b V s,
    site_url site ∈ U -> (size (U ∖ V) < fuel)%nat ->
    cover_post w Q (site_id site) V [site_url site] s
      (scrapeSite w fuel site b V s).
Proof.
  induction fuel as [|fuel IH]; intros site b V s Hin Hsz; [lia|].
  rewrite scrapeSite_S. destruct (decide (site_url site ∈ V)) as [Hv|Hv].
  - unfold ret, cover_post. split.
    { intros l Hl. by apply list_elem_of_singleton in Hl as ->. }
    exists []. split; [done|]. split; [done|].
    split; [intros u Hu; inversion Hu|]. split; done.
  - set (url := site_url site) in *. set (V1 := {[url]} ∪ V).
    assert (V ⊆ V1) as HV1 by apply union_subseteq_r.
    assert (url ∈ V1) as Hu1
      by (apply elem_of_union_l; by apply elem_of_singleton).
    assert (forall x, x ∈ V1 -> x ∉ V -> x = url) as Honly.
    { intros x Hx Hn. apply elem_of_union in Hx as [Hx|Hx]; [|done].
      by apply elem_of_singleton in Hx. }
    assert (size (U ∖ V1) < fuel)%nat as Hsz1.
    { pose proof (size_unvisited_visit U V url Hin Hv) as Hlt.
      fold V1 in Hlt. lia. }
    rewrite bind_run, emit_run, bind_run, (fetchPageData_run w).
    pose proof (gotos_fetch w url b
                  (fresh (logged (ConsoleLog (Scraping url)) s))) as Hgf.
    set (evs := fetch_events w url b _) in *.
    assert (trace (after_fetch (logged (ConsoleLog (Scraping url)) s) evs)
            = (evs ++ [ConsoleLog (Scraping url)]) ++ trace s) as Ht1
      by (cbn [after_fetch logged trace]; by rewrite <- app_assoc).
    assert (db (after_fetch (logged (ConsoleLog (Scraping url)) s) evs) = db s)
      as Hdb1 by reflexivity.
    set (s1 := after_fetch _ evs) in *. clearbody s1 evs.
    unfold fetch_result. destruct (web w url) as [doc|m|m] eqn:Hweb.
    + rewrite bind_run.
      destruct (store_videos_cover (site_id site) (extract doc)
                  (videos (extract doc)) s1
                  (fun v Hv => ex_intro _ url (ex_intro _ doc
                                 (conj Hweb (conj eq_refl Hv)))))
        as (s2 & -> & Ht2 & _ & Hvid).
      pose proof (crawl_links_cover fuel IH (subLinks (extract doc))
                    (site_id site) b V1 s2
                    (fun l Hl => HU url doc l Hin Hweb
                                   (proj1 (list_elem_of_In _ _) Hl)) Hsz1) as Hc.
      pose proof (crawl_links_post w U fuel (scrapeSite_post w U HU fuel)
                    (subLinks (extract doc)) (site_id site) b V1 s2
                    (fun l Hl => HU url doc l Hin Hweb
                                   (proj1 (list_elem_of_In _ _) Hl)) Hsz1) as Hp.
      pose proof (keys_kept_links fuel (subLinks (extract doc)) (site_id site)
                    b V1 s2) as Hkk.
      destruct (for_of (subLinks (extract doc)) V1 _ s2) as [V2 s3|e s3|];
        [|done|done].
      destruct Hp as (HV2 & _).
      destruct Hc as (Hs & new & Ht3 & Hg & Hr & Hl & Hk).
      unfold cover_post. split.
      { intros l Hl'. apply list_elem_of_singleton in Hl' as ->. by apply HV2. }
      exists (new ++ evs ++ [ConsoleLog (Scraping url)]).
      split; [by rewrite Ht3, Ht2, Ht1, app_assoc|].
      split; [|split; [|split]].
      * intros u Hu Hn. rewrite gotos_app, Hgf. apply elem_of_app.
        destruct (decide (u = url)) as [->|Hne]; [right; left|left].
        apply Hg; [done|]. intros Hu'. by apply Hne, Honly.
      * intros u Hu. rewrite gotos_app, Hgf in Hu. exists url.
        split; [left|]. apply elem_of_app in Hu as [Hu|Hu].
        -- destruct (Hr u Hu) as (l & Hl' & Hreach).
           apply (reach_link w url doc l u Hweb); [|done].
           by apply list_elem_of_In.
        -- apply list_elem_of_singleton in Hu as ->. apply reach_here.
      * intros x doc' l Hx Hn Hweb' Hl'. destruct (decide (x ∈ V1)) as [Hx1|Hx1].
        -- apply Honly in Hx1 as ->; [|done]. rewrite Hweb in Hweb'.
           injection Hweb' as <-. apply Hs. by apply list_elem_of_In.
        -- by apply (Hl x doc' l).
      * intros x doc' v Hx Hn Hweb' Hv'. destruct (decide (x ∈ V1)) as [Hx1|Hx1].
        -- apply Honly in Hx1 as ->; [|done]. rewrite Hweb in Hweb'.
           injection Hweb' as <-. by apply Hkk, Hvid.
        -- by apply (Hk x doc' v).
    + unfold ret, cover_post. split.
      { intros l Hl. by apply list_elem_of_singleton in Hl as ->. }
      exists (evs ++ [ConsoleLog (Scraping url)]). split; [done|]. rewrite Hgf.
      split; [|split; [|split]].
      * intros u Hu Hn. apply Honly in Hu as ->; [left|done].
      * intros u Hu. apply list_elem_of_singleton in Hu as ->.
        exists url. split; [left|apply reach_here].
      * intros x doc l Hx Hn Hweb'. apply Honly in Hx as ->; [|done]. congruence.
      * intros x doc v Hx Hn Hweb'. apply Honly in Hx as ->; [|done]. congruence.
    + unfold ret, cover_post. split.
      { intros l Hl. by apply list_elem_of_singleton in Hl as ->. }
      exists (evs ++ [ConsoleLog (Scraping url)]). split; [done|]. rewrite Hgf.
      split; [|split; [|split]].
      * intros u Hu Hn. apply Honly in Hu as ->; [left|done].
      * intros u Hu. apply list_elem_of_singleton in Hu as ->.
        exists url. split; [left|apply reach_here].
      * intros x doc l Hx Hn Hweb'. apply Honly in Hx as ->; [|done]. congruence.
      * intros x doc v Hx Hn Hweb'. apply Honly in Hx as ->; [|done]. congruence.
Qed.
End Cover.

Lemma reachable_in_closed (w : World) (V' : gset (list N)) a b :
  (forall x doc l, x ∈ V' -> web w x = Rendered doc ->
     In l (subLinks (extract doc)) -> l ∈ V') ->
  reachable w a b -> a ∈ V' -> b ∈ V'.
Proof.
  intros Hcl. induction 1 as [a|a doc l b Hweb Hl _ IH]; [done|].
  intros Ha. apply IH. by apply (Hcl a doc l).
Qed.

(** X6.  When no write and no call to puppeteer is rejected, a walk from
    a fresh visited set returns, and the URLs it navigated to are exactly the ones that the
    links of rendered pages lead to from the seed: a page that fails stops
    the walk below it only. *)
Theorem walk_fetches_exactly_the_reachable w U site b s fuel :
  accepts_calls w ->
  closed_under w U -> (forall d, store_rejects w d = false) ->
  site_url site ∈ U -> (size U < fuel)%nat ->
  exists V' s' new,
    scrapeSite w fuel site b ∅ s = Returned V' s'
    /\ trace s' = new ++ trace s
    /\ forall u, u ∈ gotos new <-> reachable w (site_url site) u.
Proof.
  intros Hcalm HU Hacc Hin Hsz.
  assert (size (U ∖ ∅) < fuel)%nat as Hsz'
    by (pose proof (size_unvisited_fresh U); lia).
  pose proof (scrapeSite_cover w U HU Hacc (fun _ => True)
                (fun _ _ _ _ => I) fuel site b ∅ s Hin Hsz') as Hc.
  destruct (scrapeSite w fuel site b ∅ s) as [V' s'|e s'|]; [|done|done].
  destruct Hc as (Hs & new & Ht & Hg & Hr & Hl & _).
  exists V', s', new. split; [done|]. split; [done|]. intros u. split.
  - intros Hu. destruct (Hr u Hu) as (l & Hl' & Hreach).
    by apply list_elem_of_singleton in Hl' as ->.
  - intros Hreach. apply Hg; [|apply not_elem_of_empty].
    apply (reachable_in_closed w V' (site_url site) u); [|done|apply Hs; left].
    intros x doc l Hx. apply Hl; [done|apply not_elem_of_empty].
Qed.

(** X7.  When no write and no call to puppeteer is rejected, after a walk
    every media link of every rendered page reachable from the seed has a
    document under the entry id of the link and the catalog id of the
    seed. *)
Theorem walk_stores_every_media_link w U site b s fuel :
  accepts_calls w ->
  closed_under w U -> (forall d, store_rejects w d = false) ->
  site_url site ∈ U -> (size U < fuel)%nat ->
  exists V' s',
    scrapeSite w fuel site b ∅ s = Returned V' s'
    /\ forall u doc v,
         reachable w (site_url site) u -> web w u = Rendered doc ->
         In v (videos (extract doc)) ->
         exists e, e ∈ db s' /\ e_id e = entryId v
                   /\ e_catalogId e = site_id site.
Proof.
  intros Hcalm HU Hacc Hin Hsz.
  assert (size (U ∖ ∅) < fuel)%nat as Hsz'
    by (pose proof (size_unvisited_fresh U); lia).
  pose proof (scrapeSite_cover w U HU Hacc (fun _ => True)
                (fun _ _ _ _ => I) fuel site b ∅ s Hin Hsz') as Hc.
  destruct (scrapeSite w fuel site b ∅ s) as [V' s'|e s'|]; [|done|done].
  destruct Hc as (Hs & new & Ht & Hg & Hr & Hl & Hk).
  exists V', s'. split; [done|]. intros u doc v Hreach Hweb Hv.
  assert (u ∈ V') as Hu.
  { apply (reachable_in_closed w V' (site_url site) u); [|done|apply Hs; left].
    intros x doc' l Hx. apply Hl; [done|apply not_elem_of_empty]. }
  pose proof (Hk u doc v Hu ltac:(apply not_elem_of_empty) Hweb Hv) as Hkey.
  destruct Hkey as (e & He & Hke & _).
  exists e. by injection Hke as Hid Hcat.
Qed.




(** ** Writes under their own key *)

Lemma same_key_own x d : same_key (e_id x) (e_catalogId x) d = true <-> key d = key x.
Proof. apply same_key_true. Qed.

Lemma same_key_own_false x d :
  same_key (e_id x) (e_catalogId x) d = false <-> key d <> key x.
Proof.
  rewrite <- same_key_own. by destruct (same_key (e_id x) (e_catalogId x) d).
Qed.

(** A write replaces an earlier write under the same key. *)
Lemma put_overwrite x y docs : key y = key x -> put y (put x docs) = put y docs.
Proof.
  intros Hk. unfold put. induction docs as [|d docs IH]; cbn [upsert].
  - assert (same_key (e_id y) (e_catalogId y) x = true) as ->
      by (by apply same_key_own). done.
  - destruct (same_key (e_id x) (e_catalogId x) d) eqn:Hx; cbn [upsert].
    + assert (same_key (e_id y) (e_catalogId y) x = true) as ->
        by (by apply same_key_own).
      assert (same_key (e_id y) (e_catalogId y) d = true) as ->; [|done].
      apply same_key_own. apply same_key_own in Hx. congruence.
    + assert (same_key (e_id y) (e_catalogId y) d = false) as ->.
      { apply same_key_own_false. apply same_key_own_false in Hx. congruence. }
      by rewrite IH.
Qed.

(** Writes under two keys commute once the second key is in the store. *)
Lemma put_commute x y docs :
  key x <> key y -> key y ∈ List.map key docs ->
  put y (put x docs) = put x (put y docs).
Proof.
  intros Hne. unfold put.
  assert (same_key (e_id y) (e_catalogId y) x = false) as Hyx
    by (by apply same_key_own_false).
  assert (same_key (e_id x) (e_catalogId x) y = false) as Hxy
    by (apply same_key_own_false; congruence).
  induction docs as [|d docs IH]; cbn [upsert List.map];
    [intros Hin; inversion Hin|].
  intros Hin.
  destruct (same_key (e_id x) (e_catalogId x) d) eqn:Hx,
           (same_key (e_id y) (e_catalogId y) d) eqn:Hy; cbn [upsert].
  - apply same_key_own in Hx, Hy. congruence.
  - by rewrite ?Hyx, ?Hy, ?Hx.
  - by rewrite ?Hx, ?Hy, ?Hxy.
  - rewrite ?Hx, ?Hy. f_equal. apply IH.
    apply elem_of_cons in Hin as [Hin|Hin]; [|done].
    apply same_key_own_false in Hy. congruence.
Qed.

Lemma put_keeps_keys x docs k :
  k ∈ List.map key docs -> k ∈ List.map key (put x docs).
Proof. by apply upsert_keeps_keys. Qed.

Lemma put_has_key x docs : key x ∈ List.map key (put x docs).
Proof. by apply upsert_has_key. Qed.

Lemma apply_writes_keeps_keys ops docs k :
  k ∈ List.map key docs -> k ∈ List.map key (apply_writes ops docs).
Proof.
  revert docs. induction ops as [|x ops IH]; intros docs Hk; [done|].
  cbn [apply_writes fold_left]. by apply IH, put_keeps_keys.
Qed.

Lemma apply_writes_has_keys ops docs x :
  x ∈ ops -> key x ∈ List.map key (apply_writes ops docs).
Proof.
  revert docs. induction ops as [|y ops IH]; intros docs Hx; [inversion Hx|].
  cbn [apply_writes fold_left]. apply elem_of_cons in Hx as [->|Hx].
  - apply apply_writes_keeps_keys, put_has_key.
  - by apply IH.
Qed.

Lemma apply_writes_app a b docs :
  apply_writes (a ++ b) docs = apply_writes b (apply_writes a docs).
Proof. apply fold_left_app. Qed.

Lemma put_absorbs x ops docs :
  (forall y, y ∈ ops -> key y ∈ List.map key docs) ->
  put x (apply_writes ops (put x docs)) = put x (apply_writes ops docs).
Proof.
  revert docs. induction ops as [|y ops IH]; intros docs Hk.
  - cbn. by apply put_overwrite.
  - cbn [apply_writes fold_left]. fold (apply_writes ops (put y (put x docs))).
    fold (apply_writes ops (put y docs)).
    destruct (decide (key y = key x)) as [Heq|Hne].
    + by rewrite put_overwrite.
    + rewrite put_commute; [|congruence | apply Hk; left].
      apply IH. intros z Hz. apply put_keeps_keys, Hk. by right.
Qed.

(** Replaying a sequence of writes changes nothing. *)
Lemma apply_writes_twice ops docs :
  apply_writes ops (apply_writes ops docs) = apply_writes ops docs.
Proof.
  induction ops as [|x ops IH] using rev_ind; [done|].
  rewrite !apply_writes_app. cbn [apply_writes fold_left].
  fold (apply_writes ops (put x (apply_writes ops docs))).
  rewrite put_absorbs; [by rewrite IH|].
  intros y Hy. by apply apply_writes_has_keys.
Qed.

(** ** The writes of a walk *)

Section Writes.
Context (w : World) `{Hcalm : !accepts_calls w}.
Context (Haccept : forall d, store_rejects w d = false).

Lemma store_videos_writes cat data vids s :
  exists s',
    for_of vids tt (fun v _ => store_video w cat data v) s = Returned tt s'
    /\ db s' = apply_writes (List.map (video_entry cat data) vids) (db s).
Proof.
  revert s. induction vids as [|v vids IH]; intros s; [by exists s|].
  cbn [for_of]. rewrite bind_run, store_video_run, Haccept.
  destruct (IH (stored (video_entry cat data v) s)) as (s' & -> & Hdb).
  exists s'. split; [done|]. by rewrite Hdb.
Qed.

Lemma crawl_links_writes fuel :
  (forall site V, exists o, writes_of (fun b => scrapeSite w fuel site b V) o) ->
  forall links cat V,
    exists o,
      writes_of
        (fun b =>
           for_of links V
             (fun l v => scrapeSite w fuel {| site_url := l; site_id := cat |} b v))
        o.
Proof.
  intros IH links. induction links as [|l links IHl]; intros cat V.
  - exists (Some (V, [])). intros b s. by exists s.
  - destruct (IH {| site_url := l; site_id := cat |} V) as [[[V1 ops1]|] H1].
    + destruct (IHl cat V1) as [[[V2 ops2]|] H2].
      * exists (Some (V2, ops1 ++ ops2)). intros b s. cbn [for_of].
        rewrite bind_run. destruct (H1 b s) as (s1 & -> & Hdb1).
        destruct (H2 b s1) as (s2 & -> & Hdb2).
        exists s2. split; [done|]. by rewrite apply_writes_app, <- Hdb1.
      * exists None. intros b s. cbn [for_of]. rewrite bind_run.
        destruct (H1 b s) as (s1 & -> & _). apply (H2 b s1).
    + exists None. intros b s. cbn [for_of]. rewrite bind_run.
      by rewrite (H1 b s).
Qed.

Lemma scrapeSite_writes fuel :
  forall site V, exists o, writes_of (fun b => scrapeSite w fuel site b V) o.
Proof.
  induction fuel as [|fuel IH]; intros site V; [by exists None|].
  destruct (decide (site_url site ∈ V)) as [Hv|Hv].
  - exists (Some (V, [])). intros b s. rewrite scrapeSite_S.
    destruct (decide (site_url site ∈ V)); [|done]. by exists s.
  - destruct (fetch_result w (site_url site)) as [data|] eqn:Hf.
    + destruct (crawl_links_writes fuel IH (subLinks data) (site_id site)
                  ({[site_url site]} ∪ V)) as [[[V2 ops2]|] H2].
      * exists (Some (V2, List.map (video_entry (site_id site) data) (videos data)
                           ++ ops2)).
        intros b s. rewrite scrapeSite_S.
        destruct (decide (site_url site ∈ V)); [done|].
        rewrite bind_run, emit_run, bind_run, (fetchPageData_run w), Hf, bind_run.
        match goal with |- context [for_of (videos data) tt _ ?s1] =>
          destruct (store_videos_writes (site_id site) data (videos data) s1)
            as (s2 & -> & Hdb2) end.
        destruct (H2 b s2) as (s3 & -> & Hdb3).
        exists s3. split; [done|]. by rewrite apply_writes_app, Hdb3, Hdb2.
      * exists None. intros b s. rewrite scrapeSite_S.
        destruct (decide (site_url site ∈ V)); [done|].
        rewrite bind_run, emit_run, bind_run, (fetchPageData_run w), Hf, bind_run.
        match goal with |- context [for_of (videos data) tt _ ?s1] =>
          destruct (store_videos_writes (site_id site) data (videos data) s1)
            as (s2 & -> & Hdb2) end.
        apply (H2 b s2).
    + exists (Some ({[site_url site]} ∪ V, [])). intros b s. rewrite scrapeSite_S.
      destruct (decide (site_url site ∈ V)); [done|].
      rewrite bind_run, emit_run, bind_run, (fetchPageData_run w), Hf.
      by eexists.
Qed.

Lemma walk_all_cons fuel b x sites s :
  walk_all w fuel b (x :: sites) s =
  match scrapeSite w fuel x b ∅ s with
  | Returned _ s1 => walk_all w fuel b sites s1
  | Thrown e s1 => Thrown e s1
  | OutOfFuel => OutOfFuel
  end.
Proof.
  unfold walk_all. cbn [for_of]. rewrite !bind_run.
  by destruct (scrapeSite w fuel x b ∅ s).
Qed.

Lemma walk_all_writes fuel sites :
  exists o, writes_of (fun b => walk_all w fuel b sites) o.
Proof.
  induction sites as [|x sites IH].
  - exists (Some (tt, [])). intros b s. by exists s.
  - destruct (scrapeSite_writes fuel x ∅) as [[[V1 ops1]|] H1].
    + destruct IH as [[[[] ops2]|] H2].
      * exists (Some (tt, ops1 ++ ops2)). intros b s. rewrite walk_all_cons.
        destruct (H1 b s) as (s1 & -> & Hdb1).
        destruct (H2 b s1) as (s2 & -> & Hdb2).
        exists s2. split; [done|]. by rewrite apply_writes_app, <- Hdb1.
      * exists None. intros b s. rewrite walk_all_cons.
        destruct (H1 b s) as (s1 & -> & _). apply (H2 b s1).
    + exists None. intros b s. rewrite walk_all_cons. by rewrite (H1 b s).
Qed.
End Writes.

(** X13.  On a web that does not change and with no write and no call to
    puppeteer rejected, a second refresh leaves the store exactly as the
    first one left it. *)
Theorem refresh_twice_same_store w U s fuel :
  accepts_calls w ->
  closed_under w U -> (forall d, store_rejects w d = false) ->
  (forall x, x ∈ sitesToScrape s -> site_url x ∈ U) -> (size U < fuel)%nat ->
  exists s1 s2,
    refreshScraping w fuel s = Returned tt s1
    /\ refreshScraping w fuel s1 = Returned tt s2
    /\ db s2 = db s1.
Proof.
  intros Hcalm HU Hacc Hin Hsz.
  destruct (refreshScraping_post w U HU Hacc fuel s Hin Hsz)
    as (t1 & new1 & Hw1 & Hr1 & (_ & _ & Hs1 & _) & _).
  set (s1 := closed (fresh s) t1) in *.
  assert (sitesToScrape s1 = sitesToScrape s) as Hsites by exact Hs1.
  destruct (refreshScraping_post w U HU Hacc fuel s1) as (t2 & new2 & Hw2 & Hr2 & _).
  { rewrite Hsites. exact Hin. }
  { exact Hsz. }
  exists s1, (closed (fresh s1) t2). split; [done|]. split; [done|].
  destruct (walk_all_writes w Hacc fuel (sitesToScrape s)) as [[[[] ops]|] Hops].
  - destruct (Hops (fresh s) (launched s)) as (t1' & Ht1 & Hdb1).
    rewrite Hw1 in Ht1. injection Ht1 as <-.
    rewrite Hsites in Hw2.
    destruct (Hops (fresh s1) (launched s1)) as (t2' & Ht2 & Hdb2).
    rewrite Hw2 in Ht2. injection Ht2 as <-.
    cbn [closed db launched] in *.
    rewrite Hdb2. change (db s1) with (db t1).
    by rewrite Hdb1, apply_writes_twice.
  - specialize (Hops (fresh s) (launched s)). cbv beta in Hops.
    by rewrite Hw1 in Hops.
Qed.

(** ** The catalog handler *)

Lemma sublist_List_filter {A} (f : A -> bool) l : List.filter f l `sublist_of` l.
Proof.
  induction l as [|x l IH]; cbn [List.filter]; [constructor|].
  destruct (f x); by constructor.
Qed.

Lemma sublist_List_map {A B} (f : A -> B) l1 l2 :
  l1 `sublist_of` l2 -> List.map f l1 `sublist_of` List.map f l2.
Proof. induction 1; cbn [List.map]; by constructor. Qed.

(** X16.  The catalog handler answers with entries of the catalog asked
    for only; a search takes items out of the answer without a search, in
    the same order; without a search, or with one that is empty once in
    lower case, the answer is every entry of the catalog; with another
    search it is the entries whose name in lower case holds the search in
    lower case. *)
Theorem catalogHandler_lists_its_catalog toLowerCase id search docs :
  (forall m, m ∈ catalogHandler toLowerCase id search docs ->
     exists e, e ∈ docs /\ e_catalogId e = id /\ m = meta_of e)
  /\ catalogHandler toLowerCase id search docs
     `sublist_of` catalogHandler toLowerCase id None docs
  /\ catalogHandler toLowerCase id None docs
     = List.map meta_of
         (List.filter (fun d => bool_decide (e_catalogId d = id)) docs)
  /\ (forall q, search = Some q -> toLowerCase q = [] ->
        catalogHandler toLowerCase id search docs
        = catalogHandler toLowerCase id None docs)
  /\ (forall q e, search = Some q -> toLowerCase q <> [] ->
        (meta_of e ∈ catalogHandler toLowerCase id search docs <->
         exists e', e' ∈ docs /\ e_catalogId e' = id /\ meta_of e' = meta_of e
                    /\ includes (toLowerCase q) (toLowerCase (e_name e')) = true)).
Proof.
  unfold catalogHandler. split; [|split; [|split; [|split]]].
  - intros m Hm. apply list_elem_of_In, List.in_map_iff in Hm as (e & <- & He).
    exists e.
    assert (In e (List.filter (fun d => bool_decide (e_catalogId d = id)) docs))
      as Hin.
    { destruct (match search with Some q => toLowerCase q | None => [] end);
        [done|]. by apply List.filter_In in He as [He _]. }
    apply List.filter_In in Hin as [Hin Hc]. apply bool_decide_eq_true in Hc.
    split; [by apply list_elem_of_In|done].
  - apply sublist_List_map.
    destruct (match search with Some q => toLowerCase q | None => [] end);
      [done|]. apply sublist_List_filter.
  - done.
  - intros q -> ->. done.
  - intros q e -> Hq. destruct (toLowerCase q) as [|c q'] eqn:Hlow; [done|].
    rewrite list_elem_of_In, List.in_map_iff. split.
    + intros (e' & Heq & He'). apply List.filter_In in He' as [He' Hinc].
      apply List.filter_In in He' as [He' Hc]. apply bool_decide_eq_true in Hc.
      exists e'. split; [by apply list_elem_of_In|done].
    + intros (e' & He' & Hc & Heq & Hinc). exists e'. split; [done|].
      apply List.filter_In. split; [|done]. apply List.filter_In.
      split; [by apply list_elem_of_In | by apply bool_decide_eq_true].
Qed.

Lemma filter_meta_id i l :
  List.filter (fun m => bool_decide (meta_id m = i)) (List.map meta_of l)
  = List.map meta_of (List.filter (fun e => bool_decide (e_id e = i)) l).
Proof.
  induction l as [|e l IH]; [done|]. cbn [List.map List.filter meta_of meta_id].
  destruct (bool_decide (e_id e = i)); cbn [List.map]; by rewrite IH.
Qed.

Lemma filter_id_catalog i cat l :
  List.filter (fun e => bool_decide (e_id e = i))
    (List.filter (fun d => bool_decide (e_catalogId d = cat)) l)
  = List.filter (same_key i cat) l.
Proof.
  induction l as [|e l IH]; [done|]. cbn [List.filter]. unfold same_key at 1.
  destruct (bool_decide (e_catalogId e = cat)); cbn [List.filter];
    destruct (bool_decide (e_id e = i)); cbn [andb]; by rewrite IH.
Qed.

(** X17.  Once a media link is written for a catalog, into a store that
    upserts built, the catalog handler lists it for that catalog, once. *)
Theorem catalog_lists_stored_video w toLowerCase cat data v s :
  written (db s) -> store_rejects w (video_entry cat data v) = false ->
  exists s',
    store_video w cat data v s = Returned tt s'
    /\ List.filter (fun m => bool_decide (meta_id m = entryId v))
         (catalogHandler toLowerCase cat None (db s'))
       = [meta_of (video_entry cat data v)].
Proof.
  intros Hw Hacc. rewrite store_video_run, Hacc. eexists. split; [done|].
  unfold catalogHandler. cbn [db stored video_entry e_id e_catalogId].
  rewrite filter_meta_id, filter_id_catalog.
  rewrite upsert_filter; [done | done | by apply written_NoDup].
Qed.

(** ** The registry *)




(** X19.  Whatever the request and however it ends, [add_site] leaves a
    site list in which every site has a URL with a host name and the
    catalog id of that host name. *)
Theorem add_site_keeps_registry w U fuel url s :
  closed_under w U -> (forall x, x ∈ sitesToScrape s -> site_url x ∈ U) ->
  (forall u, url = Some u -> u ∈ U) -> (size U < fuel)%nat ->
  (forall x, x ∈ sitesToScrape s -> registered w x) ->
  match add_site w fuel url s with
  | Returned _ s' | Thrown _ s' =>
      forall x, x ∈ sitesToScrape s' -> registered w x
  | OutOfFuel => False
  end.
Proof.
  intros HU Hin Hurl Hsz Hreg.
  destruct url as [[|c u]|]; [exact Hreg| |exact Hreg].
  rewrite add_site_run. destruct (hostname_of w (c :: u)) as [h|] eqn:Hh;
    [|exact Hreg]. cbv zeta.
  match goal with |- context [refreshScraping w fuel ?s0] => set (s1 := s0) end.
  assert (forall x, x ∈ sitesToScrape s1 -> registered w x) as Hreg1.
  { intros x Hx. apply elem_of_app in Hx as [Hx|Hx]; [by apply Hreg|].
    apply list_elem_of_singleton in Hx as ->. by exists h. }
  assert (forall x, x ∈ sitesToScrape s1 -> site_url x ∈ U) as Hin1.
  { intros x Hx. apply elem_of_app in Hx as [Hx|Hx]; [by apply Hin|].
    apply list_elem_of_singleton in Hx as ->. by apply Hurl. }
  pose proof (refreshScraping_ends w U fuel s1 HU Hin1 Hsz) as Hend.
  pose proof (refreshScraping_inv w (fun _ => True)
                (fun _ _ => True) (fun _ _ _ _ _ => I)
                (fun a b => sitesToScrape b = sitesToScrape a)
                ltac:(done) ltac:(intros a b0 c0 H1 H2; congruence)
                ltac:(done) ltac:(done) ltac:(done) ltac:(done) ltac:(done)
                fuel s1 ltac:(done)) as Hsites.
  destruct (refreshScraping w fuel s1) as [[] s2|e s2|]; [| |done];
    cbn [logged sitesToScrape]; by rewrite Hsites.
Qed.

Lemma times_app u l1 l2 : times u (l1 ++ l2) = (times u l1 + times u l2)%nat.
Proof. unfold times. by rewrite List.filter_app, length_app. Qed.

Lemma times_elem u l : u ∈ l -> (1 <= times u l)%nat.
Proof.
  unfold times. induction 1 as [u l|u v l _ IH]; cbn [List.filter].
  - rewrite bool_decide_eq_true_2 by done. cbn [length]. lia.
  - destruct (bool_decide (v = u)); cbn [length]; lia.
Qed.

Lemma walk_all_times w U fuel b sites s :
  accepts_calls w ->
  closed_under w U -> (forall d, store_rejects w d = false) ->
  (forall x, x ∈ sites -> site_url x ∈ U) -> (size U < fuel)%nat ->
  exists s' new,
    walk_all w fuel b sites s = Returned tt s' /\ trace s' = new ++ trace s
    /\ forall u, (times u (List.map site_url sites) <= times u (gotos new))%nat.
Proof.
  intros Hcalm HU Hacc Hin Hsz. revert s. induction sites as [|x sites IH]; intros s.
  - exists s, []. repeat split. intros u. cbn. lia.
  - rewrite walk_all_cons.
    assert (size (U ∖ ∅) < fuel)%nat as Hsz'
      by (pose proof (size_unvisited_fresh U); lia).
    pose proof (scrapeSite_post w U HU fuel x b ∅ s ltac:(apply Hin; left) Hsz')
      as Hx.
    destruct (scrapeSite w fuel x b ∅ s) as [V1 s1|e s1|]; [| |done].
    + destruct Hx as (_ & new1 & (Ht1 & _) & _ & _ & Hseed).
      destruct (IH ltac:(intros; apply Hin; by right) s1)
        as (s2 & new2 & -> & Ht2 & Hcount).
      exists s2, (new2 ++ new1). split; [done|].
      split; [by rewrite Ht2, Ht1, app_assoc|].
      intros u. rewrite gotos_app, times_app. specialize (Hcount u).
      cbn [List.map]. change (site_url x :: List.map site_url sites)
        with ([site_url x] ++ List.map site_url sites). rewrite times_app.
      assert (times u [site_url x] <= times u (gotos new1))%nat; [|lia].
      unfold times at 1. cbn [List.filter].
      destruct (bool_decide (site_url x = u)) eqn:Hu; cbn [length]; [|lia].
      apply bool_decide_eq_true in Hu as <-.
      apply times_elem, Hseed; [left | apply not_elem_of_empty].
    + destruct Hx as ((d & _ & Hd) & _). by rewrite Hacc in Hd.
Qed.

(** X14.  Every site of the list is walked from a visited set of its own:
    when no write and no call to puppeteer is rejected, a refresh navigates
    to a seed at least as many times as the list holds it. *)
Theorem refresh_walks_each_site_afresh w U s fuel :
  accepts_calls w ->
  closed_under w U -> (forall d, store_rejects w d = false) ->
  (forall x, x ∈ sitesToScrape s -> site_url x ∈ U) -> (size U < fuel)%nat ->
  exists s' new,
    refreshScraping w fuel s = Returned tt s' /\ trace s' = new ++ trace s
    /\ forall u,
         (times u (List.map site_url (sitesToScrape s)) <= times u (gotos new))%nat.
Proof.
  intros Hcalm HU Hacc Hin Hsz. rewrite (refreshScraping_run w).
  destruct (walk_all_times w U fuel (fresh s) (sitesToScrape s) (launched s)
              Hcalm HU Hacc Hin Hsz) as (s1 & new & -> & Ht & Hcount).
  exists (closed (fresh s) s1),
    ([ConsoleLog Completed; BrowserClose (fresh s)] ++ new
     ++ [Launch (fresh s); ConsoleLog Starting]).
  split; [done|]. split.
  - cbn [closed trace launched] in *. rewrite Ht. cbn [app].
    by rewrite <- app_assoc.
  - intros u. rewrite !gotos_app, !times_app. specialize (Hcount u). lia.
Qed.


(** ** Instances on the sample worlds *)

Lemma world_of_accepts_calls pages rejects :
  accepts_calls (Sample.world_of pages rejects).
Proof. intros t c. reflexivity. Qed.

Lemma closed_example_com :
  closed_under Sample.example_com
    (list_to_set [js "https://example.com"; js "https://example.com/movie.mp4";
                  js "https://example.com/page2"]).
Proof. apply closedb_sound. vm_compute. reflexivity. Qed.

Lemma closed_three_sites :
  closed_under Sample.second_site_down
    (list_to_set [js "https://one.example/"; js "https://two.example/";
                  js "https://three.example/"]).
Proof. apply closedb_sound. vm_compute. reflexivity. Qed.

(** The id of a link decodes to the link. *)
Lemma entryId_round_trip_witness :
  Buffer.utf8_decode
    (Buffer.base64_decode (entryId (js "https://example.com/movie.mp4")))
  = js "https://example.com/movie.mp4".
Proof. apply entryId_round_trip. reflexivity. Defined.

(** The id of a link with an unpaired surrogate is still base64 text. *)
Lemma entryId_shape_witness :
  Forall (fun c => In c Buffer.alphabet \/ c = Buffer.pad)
         (entryId Sample.lone_d800)
  /\ (length (entryId Sample.lone_d800) mod 4 = 0)%nat
  /\ (entryId Sample.lone_d800 = [] <-> Sample.lone_d800 = []).
Proof.
  apply entryId_shape. apply (bool_decide_unpack _). vm_compute. exact I.
Defined.

(** The walk of [https://example.com]: the seed, the media link and the
    second page. *)
Lemma walk_fetches_exactly_the_reachable_witness :
  exists V' s' new,
    scrapeSite Sample.example_com 4
      (Sample.site "https://example.com" "catalog-example-com") 0 ∅ initial
    = Returned V' s'
    /\ trace s' = new ++ trace initial
    /\ forall u, u ∈ gotos new <-> reachable Sample.example_com
                                     (js "https://example.com") u.
Proof.
  apply (walk_fetches_exactly_the_reachable Sample.example_com _
           (Sample.site "https://example.com" "catalog-example-com") 0 initial 4
           (world_of_accepts_calls _ _) closed_example_com).
  - intros d. reflexivity.
  - apply elem_of_list_to_set. left.
  - vm_compute. lia.
Defined.

Lemma walk_stores_every_media_link_witness :
  exists V' s',
    scrapeSite Sample.example_com 4
      (Sample.site "https://example.com" "catalog-example-com") 0 ∅ initial
    = Returned V' s'
    /\ forall u doc v,
         reachable Sample.example_com (js "https://example.com") u ->
         web Sample.example_com u = Rendered doc ->
         In v (videos (extract doc)) ->
         exists e, e ∈ db s' /\ e_id e = entryId v
                   /\ e_catalogId e = js "catalog-example-com".
Proof.
  apply (walk_stores_every_media_link Sample.example_com _
           (Sample.site "https://example.com" "catalog-example-com") 0 initial 4
           (world_of_accepts_calls _ _) closed_example_com).
  - intros d. reflexivity.
  - apply elem_of_list_to_set. left.
  - vm_compute. lia.
Defined.

Lemma walk_touches_only_its_catalog_witness :
  match scrapeSite Sample.example_com 4
          (Sample.site "https://example.com" "catalog-example-com") 0 ∅ initial
  with
  | Returned _ s' | Thrown _ s' =>
      (forall c, c <> js "catalog-example-com" ->
         List.filter (fun d => bool_decide (e_catalogId d = c)) (db s')
         = List.filter (fun d => bool_decide (e_catalogId d = c)) (db initial))
      /\ (forall e, e ∈ db s' ->
            e ∈ db initial
            \/ (e_catalogId e = js "catalog-example-com"
                /\ e_id e = entryId (e_videoUrl e)))
  | OutOfFuel => False
  end.
Proof.
  apply (walk_touches_only_its_catalog Sample.example_com _
           (Sample.site "https://example.com" "catalog-example-com") 0 initial 4
           closed_example_com).
  - apply elem_of_list_to_set. left.
  - vm_compute. lia.
Defined.

Lemma walk_closes_every_page_witness :
  match scrapeSite Sample.example_com 4
          (Sample.site "https://example.com" "catalog-example-com") 0 ∅ initial
  with
  | Returned _ s' | Thrown _ s' =>
      exists new, trace s' = new ++ trace initial
                  /\ pages_opened new = pages_closed new
  | OutOfFuel => False
  end.
Proof.
  apply (walk_closes_every_page Sample.example_com _ 4
           (Sample.site "https://example.com" "catalog-example-com") 0 ∅ initial
           (world_of_accepts_calls _ _) closed_example_com).
  - apply elem_of_list_to_set. left.
  - vm_compute. lia.
Defined.

Lemma three_sites_in :
  forall x, x ∈ sitesToScrape (Sample.with_sites Sample.three_sites) ->
    site_url x ∈ (list_to_set [js "https://one.example/"; js "https://two.example/";
                               js "https://three.example/"] : gset (list N)).
Proof. apply seeds_in_sound. vm_compute. reflexivity. Qed.

Lemma refresh_never_deletes_witness :
  match refreshScraping Sample.second_site_down 4
          (Sample.with_sites Sample.three_sites) with
  | Returned _ s' | Thrown _ s' =>
      (forall k, k ∈ List.map key (db (Sample.with_sites Sample.three_sites)) ->
         k ∈ List.map key (db s'))
      /\ (length (db (Sample.with_sites Sample.three_sites)) <= length (db s'))%nat
  | OutOfFuel => False
  end.
Proof.
  apply (refresh_never_deletes Sample.second_site_down _ _ 4 closed_three_sites
           three_sites_in).
  vm_compute. lia.
Defined.

Lemma refresh_keeps_keys_unique_witness :
  match refreshScraping Sample.second_site_down 4
          (Sample.with_sites Sample.three_sites) with
  | Returned _ s' | Thrown _ s' =>
      written (db s') /\ NoDup (List.map key (db s'))
  | OutOfFuel => False
  end.
Proof.
  apply (refresh_keeps_keys_unique Sample.second_site_down _ _ 4
           closed_three_sites three_sites_in).
  - vm_compute. lia.
  - apply written_empty.
Defined.

Lemma refresh_twice_same_store_witness :
  exists s1 s2,
    refreshScraping Sample.second_site_down 4
      (Sample.with_sites Sample.three_sites) = Returned tt s1
    /\ refreshScraping Sample.second_site_down 4 s1 = Returned tt s2
    /\ db s2 = db s1.
Proof.
  apply (refresh_twice_same_store Sample.second_site_down _ _ 4
           (world_of_accepts_calls _ _) closed_three_sites).
  - intros d. reflexivity.
  - apply three_sites_in.
  - vm_compute. lia.
Defined.

Lemma stream_of_written_witness :
  streamHandler
    (e_id (video_entry (js "catalog-example-com")
             (extract {| location_origin := js "https://example.com";
                         document_title := js "Home"; meta_description := None;
                         meta_og_image := None; elements := [] |})
             (js "https://example.com/movie.mp4")))
    (upsert (entryId (js "https://example.com/movie.mp4"))
       (js "catalog-example-com")
       (video_entry (js "catalog-example-com")
          (extract {| location_origin := js "https://example.com";
                      document_title := js "Home"; meta_description := None;
                      meta_og_image := None; elements := [] |})
          (js "https://example.com/movie.mp4")) [])
  = [{| stream_url := js "https://example.com/movie.mp4" |}].
Proof.
  apply (stream_of_written _
           (video_entry (js "catalog-example-com")
              (extract {| location_origin := js "https://example.com";
                          document_title := js "Home"; meta_description := None;
                          meta_og_image := None; elements := [] |})
              (js "https://example.com/movie.mp4"))).
  - apply written_upsert, written_empty.
  - left.
  - intros d Hd. apply list_elem_of_singleton in Hd as ->. reflexivity.
Defined.

Lemma catalog_lists_stored_video_witness :
  exists s',
    store_video Sample.example_com (js "catalog-example-com")
      (extract {| location_origin := js "https://example.com";
                  document_title := js "Home"; meta_description := None;
                  meta_og_image := None; elements := [] |})
      (js "https://example.com/movie.mp4") initial = Returned tt s'
    /\ List.filter
         (fun m => bool_decide
                     (meta_id m = entryId (js "https://example.com/movie.mp4")))
         (catalogHandler ascii_toLowerCase (js "catalog-example-com") None
            (db s'))
       = [meta_of
            (video_entry (js "catalog-example-com")
               (extract {| location_origin := js "https://example.com";
                           document_title := js "Home"; meta_description := None;
                           meta_og_image := None; elements := [] |})
               (js "https://example.com/movie.mp4"))].
Proof.
  apply catalog_lists_stored_video; [apply written_empty | reflexivity].
Defined.

Lemma example_com_registered :
  forall x,
    x ∈ sitesToScrape
          (Sample.with_sites
             [Sample.site "https://example.com" "catalog-example-com"]) ->
    registered Sample.example_com x.
Proof.
  intros x Hx. apply list_elem_of_singleton in Hx as ->.
  exists (js "example.com"). split; vm_compute; reflexivity.
Qed.


Lemma add_site_keeps_registry_witness :
  match add_site Sample.example_com 4 (Some (js "https://example.com/page2"))
          (Sample.with_sites
             [Sample.site "https://example.com" "catalog-example-com"])
  with
  | Returned _ s' | Thrown _ s' =>
      forall x, x ∈ sitesToScrape s' -> registered Sample.example_com x
  | OutOfFuel => False
  end.
Proof.
  apply (add_site_keeps_registry Sample.example_com _ 4 _ _ closed_example_com).
  - apply seeds_in_sound. vm_compute. reflexivity.
  - intros u [= <-]. apply elem_of_list_to_set. right. right. left.
  - vm_compute. lia.
  - apply example_com_registered.
Defined.

(** The same site registered twice is walked twice. *)
Lemma refresh_walks_each_site_afresh_witness :
  exists s' new,
    refreshScraping Sample.cycle 3
      (Sample.with_sites [Sample.site "https://a.example/" "catalog-a-example";
                          Sample.site "https://a.example/" "catalog-a-example"])
    = Returned tt s'
    /\ trace s' = new ++ []
    /\ forall u,
         (times u [js "https://a.example/"; js "https://a.example/"]
          <= times u (gotos new))%nat.
Proof.
  apply (refresh_walks_each_site_afresh Sample.cycle
           (list_to_set [js "https://a.example/"; js "https://a.example/b"])).
  - apply world_of_accepts_calls.
  - apply closedb_sound. vm_compute. reflexivity.
  - intros d. reflexivity.
  - apply seeds_in_sound. vm_compute. reflexivity.
  - vm_compute. lia.
Defined.

Lemma refresh_stores_well_made_entries_witness :
  match refreshScraping Sample.second_site_down 4
          (Sample.with_sites Sample.three_sites) with
  | Returned _ s' | Thrown _ s' => forall e, e ∈ db s' -> well_made e
  | OutOfFuel => False
  end.
Proof.
  apply (refresh_stores_well_made_entries Sample.second_site_down
           (list_to_set [js "https://one.example/"; js "https://two.example/";
                         js "https://three.example/"])).
  - apply closedb_sound. vm_compute. reflexivity.
  - apply seeds_in_sound. vm_compute. reflexivity.
  - vm_compute. lia.
  - intros e He. inversion He.
Defined.
